(** * Voice chat relay: message store, turn pipeline, polling and buffering

    A shallow embedding of [server.py]: the SQLite-backed message log
    ([init_db], [db_insert_message], [db_get_messages_since],
    [db_mark_delivered]), the turn pipeline ([call_main_session],
    [generate_tts], [process_voice_message]), the HTTP handlers, and the
    browser-side buffering logic ([processAudio], [sendBufferedSpeech]).

    The [messages] table has an [INTEGER PRIMARY KEY AUTOINCREMENT] column,
    so it is a finite map from row id to the remaining columns.  The outside
    world (clock, remote agent, synthesis subprocess) is an explicit
    environment; handlers are state transformers over a [World].  Writes to
    the log files are left out: no handler reads them back. *)

From Stdlib Require Import Ascii String.
From stdpp Require Import gmap strings list sorting pretty.

Local Open Scope Z_scope.

(** ** The message store *)

Module Store.

(** The non-key columns of a [messages] row. *)
Record Row := mkRow {
  timestamp : string;
  direction : string;
  text : string;
  audio_path : option string;   (* TEXT, NULL when absent *)
  delivered : Z                 (* INTEGER DEFAULT 0 *)
}.

(** The database file: the table, keyed by [id], and the AUTOINCREMENT
    counter SQLite keeps for it in [sqlite_sequence]. *)
Record DB := mkDB {
  messages : gmap Z Row;
  sqlite_sequence : Z
}.

(** [dict(row)] for the five columns both SELECT statements name; the
    [delivered] column is not among them. *)
Record Message := mkMessage {
  id : Z;
  msg_timestamp : string;
  msg_direction : string;
  msg_text : string;
  msg_audio_path : option string
}.

Definition select_columns (kr : Z * Row) : Message :=
  mkMessage kr.1 (timestamp kr.2) (direction kr.2) (text kr.2) (audio_path kr.2).

(** [CREATE TABLE IF NOT EXISTS]: a missing file becomes an empty table,
    an existing one is kept as it is. *)
Definition init_db (file : option DB) : DB :=
  match file with
  | Some db => db
  | None => mkDB ∅ 0
  end.

Definition max_rowid (m : gmap Z Row) : Z :=
  foldr Z.max 0 (map_to_list m).*1.

(** AUTOINCREMENT: one more than the largest rowid that ever existed. *)
Definition next_rowid (db : DB) : Z :=
  Z.max (sqlite_sequence db) (max_rowid (messages db)) + 1.

(** [db_insert_message(direction, text, audio_path=None)]; [now] is the
    reading of [datetime.datetime.now().isoformat()].  Returns
    [cursor.lastrowid]. *)
Definition db_insert_message (now : string) (direction text : string)
    (audio_path : option string) (db : DB) : Z * DB :=
  let msg_id := next_rowid db in
  (msg_id,
   mkDB (<[msg_id := mkRow now direction text audio_path 0]> (messages db)) msg_id).

(** [UPDATE messages SET audio_path = ? WHERE id = ?] *)
Definition set_audio_path (r : Row) (p : string) : Row :=
  mkRow (timestamp r) (direction r) (text r) (Some p) (delivered r).

Definition db_update_audio_path (p : string) (msg_id : Z) (db : DB) : DB :=
  mkDB (alter (λ r, set_audio_path r p) msg_id (messages db)) (sqlite_sequence db).

(** [UPDATE messages SET delivered = 1 WHERE id = ?] *)
Definition set_delivered (r : Row) : Row :=
  mkRow (timestamp r) (direction r) (text r) (audio_path r) 1.

Definition db_mark_delivered (msg_id : Z) (db : DB) : DB :=
  mkDB (alter set_delivered msg_id (messages db)) (sqlite_sequence db).

(** The integers [conn.execute] can hand to SQLite for a [?]: those of 64
    bits, signed.  For a Python [int] outside of them it raises
    OverflowError before the statement runs.  The statements above and the
    queries below say what SQLite does once its parameters are bound. *)
Definition int64 (z : Z) : bool :=
  (- 2 ^ 63 <=? z) && (z <? 2 ^ 63).

(** Row ids are 64-bit integers themselves: SQLite holds no other. *)
Definition ids_in_int64 (db : DB) : Prop :=
  ∀ k r, messages db !! k = Some r → int64 k = true.

(** SQL clauses.  [LIMIT n] with a negative [n] puts no bound. *)
Definition id_le (a b : Z * Row) : Prop := a.1 ≤ b.1.
Definition id_ge (a b : Z * Row) : Prop := b.1 ≤ a.1.

Global Instance id_le_dec : RelDecision id_le.
Proof. intros a b; unfold id_le; apply _. Defined.
Global Instance id_ge_dec : RelDecision id_ge.
Proof. intros a b; unfold id_ge; apply _. Defined.

Definition order_by_id_asc (l : list (Z * Row)) : list (Z * Row) :=
  merge_sort id_le l.
Definition order_by_id_desc (l : list (Z * Row)) : list (Z * Row) :=
  merge_sort id_ge l.

Definition sql_limit {A} (n : Z) (l : list A) : list A :=
  if decide (n < 0) then l else take (Z.to_nat n) l.

Definition where_id_gt (since_id : Z) (l : list (Z * Row)) : list (Z * Row) :=
  filter (λ kr, since_id < kr.1) l.

(** [SELECT id, timestamp, direction, text, audio_path FROM messages
     WHERE id > ? ORDER BY id ASC LIMIT ?], for [since_id] and [limit] that
    are [int64]: the rows the statement gives.  The exception raised for
    other parameters is with the callers, in [execute_query]. *)
Definition db_get_messages_since (since_id limit : Z) (db : DB) : list Message :=
  select_columns <$>
    sql_limit limit (order_by_id_asc (where_id_gt since_id (map_to_list (messages db)))).

(** The query of [history_handler], followed by [messages.reverse()]:
    [SELECT ... FROM messages ORDER BY id DESC LIMIT ?], for a [limit] that
    is [int64]; the exception raised for any other is in [execute_query]. *)
Definition db_get_recent (limit : Z) (db : DB) : list Message :=
  reverse (select_columns <$>
    sql_limit limit (order_by_id_desc (map_to_list (messages db)))).

(** Everything a poll with this cursor would return were there no limit. *)
Definition pending_since (since_id : Z) (db : DB) : list Message :=
  db_get_messages_since since_id (-1) db.

(** The three statements of the program that write to the table. *)
Inductive StoreOp :=
  | Insert (now direction text : string) (audio_path : option string)
  | UpdateAudioPath (p : string) (msg_id : Z)
  | MarkDelivered (msg_id : Z).

Definition apply_op (op : StoreOp) (db : DB) : DB :=
  match op with
  | Insert now direction text audio_path =>
      (db_insert_message now direction text audio_path db).2
  | UpdateAudioPath p msg_id => db_update_audio_path p msg_id db
  | MarkDelivered msg_id => db_mark_delivered msg_id db
  end.

Definition writes (ops : list StoreOp) (db : DB) : DB :=
  foldl (λ d op, apply_op op d) db ops.

(** A row with its [delivered] column blanked, and a change of the non-key
    columns of a keyed row. *)
Definition forget_delivered (r : Row) : Row :=
  mkRow (timestamp r) (direction r) (text r) (audio_path r) 0.

Definition on_row (f : Row → Row) (kr : Z * Row) : Z * Row := (kr.1, f kr.2).

End Store.

Import Store.

(** ** Strings

    A [string] is read as a sequence of code units below 256.  The tests the
    program makes on text (whitespace, the letters of the cue word, the full
    stop) all fall in that range. *)

Module Text.

Definition code (c : ascii) : N := N_of_ascii c.
Definition in_range (lo hi : N) (c : ascii) : bool :=
  ((lo <=? code c) && (code c <=? hi))%N.

(** Python [str.isspace] per character, as used by [str.strip()]. *)
Definition py_isspace (c : ascii) : bool :=
  in_range 9 13 c || in_range 28 32 c || in_range 133 133 c || in_range 160 160 c.

(** ECMAScript WhiteSpace and LineTerminator, as used by [trim()] and by
    the regular-expression class [\s]. *)
Definition js_isspace (c : ascii) : bool :=
  in_range 9 13 c || in_range 32 32 c || in_range 160 160 c.

Fixpoint lstrip (sp : ascii → bool) (s : string) : string :=
  match s with
  | String c s' => if sp c then lstrip sp s' else s
  | EmptyString => EmptyString
  end.

Fixpoint rstrip (sp : ascii → bool) (s : string) : string :=
  match s with
  | String c s' =>
      match rstrip sp s' with
      | EmptyString => if sp c then EmptyString else String c EmptyString
      | r => String c r
      end
  | EmptyString => EmptyString
  end.

Definition strip (sp : ascii → bool) (s : string) : string :=
  lstrip sp (rstrip sp s).

Definition nonempty (s : string) : bool :=
  match s with EmptyString => false | String _ _ => true end.

Fixpoint all_space (sp : ascii → bool) (s : string) : bool :=
  match s with
  | String c s' => sp c && all_space sp s'
  | EmptyString => true
  end.

Fixpoint last_char (s : string) : option ascii :=
  match s with
  | String c EmptyString => Some c
  | String _ s' => last_char s'
  | EmptyString => None
  end.

End Text.

(** ** The outside world *)

(** What the [try] block of [call_main_session] comes to, up to the test
    [if response_text:].  No answer within the deadline; any other exception
    (connection refused, HTTP error status, malformed body, and also a
    content that is a number, [true] or an object, on which the slice
    [response_text[:50]] of the log line raises); a string found under
    [choices[0].message.content] (the empty string also stands for a missing
    key and for every other content Python takes for false: [null],
    [false], [0], an empty array or object); or a JSON array that is not
    empty, which is true and can be sliced. *)
Inductive HttpOutcome :=
  | HttpTimeout
  | HttpError
  | HttpContent (content : string)
  | HttpContentList.

(** What [call_main_session] returns when it does not return [None]: the
    content as it was found, a string or a list. *)
Inductive Reply :=
  | ReplyText (s : string)
  | ReplyList.

(** A call that returns a value or lets an exception through. *)
Inductive Outcome (A : Type) :=
  | Returns (a : A)
  | Raises.
Arguments Returns {A} a.
Arguments Raises {A}.

(** What [subprocess.run([... node-edge-tts ...], timeout=30)] comes to:
    [TimeoutExpired], another exception, or a finished process, after which
    the target file exists or not. *)
Inductive TtsOutcome :=
  | TtsTimeout
  | TtsError
  | TtsExit (file_exists : bool).

(** The environment answers the [n]-th clock reading taken for a row's
    timestamp, the [n]-th call to the remote agent and the [n]-th run of
    the synthesis process. *)
Record Env := mkEnv {
  now : nat → string;
  urlopen : nat → string → Z → HttpOutcome;
  edge_tts : nat → string → Z → TtsOutcome
}.

(** The database file as it stands, every state a [conn.commit()] left it
    in (oldest first), and what has been asked of the environment so far. *)
Record World := mkWorld {
  db : DB;
  commits : list DB;
  clock : nat;
  relay_calls : list (string * Z);
  tts_calls : list (string * Z)
}.

Definition initial_world : World :=
  mkWorld (init_db None) [init_db None] 0 [] [].

(** A small state monad over [World]. *)
Definition M (A : Type) : Type := World → A * World.

Global Instance M_ret : MRet M := λ A a w, (a, w).
Global Instance M_bind : MBind M :=
  λ A B k m w, let (a, w') := m w in k a w'.

(** A write followed by [conn.commit()]. *)
Definition run_db {A} (f : DB → A * DB) : M A :=
  λ w, let (a, d) := f (db w) in
       (a, mkWorld d (commits w ++ [d]) (clock w) (relay_calls w) (tts_calls w)).

Definition read_db {A} (f : DB → A) : M A := λ w, (f (db w), w).

Definition read_clock (e : Env) : M string :=
  λ w, (now e (clock w),
        mkWorld (db w) (commits w) (S (clock w)) (relay_calls w) (tts_calls w)).

(** ** The turn pipeline *)

Section Pipeline.
Variable env : Env.

Definition insert_message (direction text : string) (audio_path : option string)
    : M Z :=
  ts ← read_clock env;
  run_db (db_insert_message ts direction text audio_path).

(** [call_main_session(text, msg_id)]: the reply, or [None] on an
    exception or on empty content. *)
Definition call_main_session (text : string) (msg_id : Z) : M (option Reply) :=
  λ w,
    let w' := mkWorld (db w) (commits w) (clock w) (relay_calls w ++ [(text, msg_id)]) (tts_calls w) in
    match urlopen env (length (relay_calls w)) text msg_id with
    | HttpContent response_text =>
        if Text.nonempty response_text then (Some (ReplyText response_text), w')
        else (None, w')
    | HttpContentList => (Some ReplyList, w')
    | HttpTimeout | HttpError => (None, w')
    end.

Definition audio_url (msg_id : Z) : string :=
  "/audio/jarvis_" +:+ pretty msg_id +:+ ".mp3".

(** [generate_tts(text, msg_id)] *)
Definition generate_tts (text : string) (msg_id : Z) : M (option string) :=
  λ w,
    let w' := mkWorld (db w) (commits w) (clock w) (relay_calls w) (tts_calls w ++ [(text, msg_id)]) in
    match edge_tts env (length (tts_calls w)) text msg_id with
    | TtsExit true => (Some (audio_url msg_id), w')
    | TtsExit false => (None, w')
    | TtsTimeout | TtsError => (None, w')
    end.

(** [if audio_path:] followed by the UPDATE and its commit. *)
Definition attach_audio (audio_path : option string) (msg_id : Z) : M unit :=
  match audio_path with
  | Some p => if Text.nonempty p
              then run_db (λ d, (tt, db_update_audio_path p msg_id d))
              else mret tt
  | None => mret tt
  end.

(** [process_voice_message(text, msg_id)]; [if response:] holds for a
    string that is not empty and for a list that is not empty.  Given the
    list, [db_insert_message('jarvis', response)] takes the timestamp and
    then raises in [conn.execute], which cannot bind a list to the [text]
    column: nothing is inserted or committed, and the exception leaves
    [process_voice_message]. *)
Definition process_voice_message (text : string) (msg_id : Z)
    : M (Outcome (option Z)) :=
  response ← call_main_session text msg_id;
  match response with
  | Some (ReplyText r) =>
      if Text.nonempty r then
        response_id ← insert_message "jarvis" r None;
        audio_path ← generate_tts r response_id;
        attach_audio audio_path response_id;;
        mret (Returns (Some response_id))
      else mret (Returns None)
  | Some ReplyList => read_clock env;; mret Raises
  | None => mret (Returns None)
  end.

(** ** HTTP handlers *)

(** The [text] member of a JSON body, after [data.get('text', '')]. *)
Inductive TextField :=
  | TextMissing
  | TextString (s : string)
  | TextNotString.

(** A request body: [request.json()] raises (or gives something without
    [get]), or gives an object. *)
Inductive Body :=
  | BodyNotJson
  | BodyJson (text : TextField).

(** An integer parameter read with [int(...)]: absent, a literal, or
    something [int] rejects. *)
Inductive IntParam :=
  | ParamMissing
  | ParamInt (z : Z)
  | ParamNotInt.

Inductive Response :=
  | BadRequest (error : string)           (* status 400 *)
  | ServerError                           (* status 500 *)
  | SpeakOk (message_id : Z) (response_id : option Z)
  | RespondOk (message_id : Z) (audio_path : option string)
  | MessagesOk (messages : list Message)
  | Ok.

(** [data.get('text', '').strip()]; [None] when it raises. *)
Definition body_text (b : Body) : option string :=
  match b with
  | BodyNotJson => None
  | BodyJson TextMissing => Some (Text.strip Text.py_isspace EmptyString)
  | BodyJson (TextString s) => Some (Text.strip Text.py_isspace s)
  | BodyJson TextNotString => None
  end.

Definition speak_handler (b : Body) : M Response :=
  match body_text b with
  | None => mret ServerError
  | Some text =>
      if negb (Text.nonempty text) then mret (BadRequest "No text")
      else
        msg_id ← insert_message "user" text None;
        outcome ← process_voice_message text msg_id;
        match outcome with
        | Returns response_id => mret (SpeakOk msg_id response_id)
        | Raises => mret ServerError      (* [except Exception]: status 500 *)
        end
  end.

Definition respond_handler (b : Body) : M Response :=
  match body_text b with
  | None => mret ServerError
  | Some text =>
      if negb (Text.nonempty text) then mret (BadRequest "No text provided")
      else
        msg_id ← insert_message "jarvis" text None;
        audio_path ← generate_tts text msg_id;
        attach_audio audio_path msg_id;;
        mret (RespondOk msg_id audio_path)
  end.

(** [int(request.query.get(name, default))] *)
Definition int_param (default : Z) (p : IntParam) : option Z :=
  match p with
  | ParamMissing => Some default
  | ParamInt z => Some z
  | ParamNotInt => None
  end.

(** [conn.execute(sql, params)] for a statement whose integer parameters
    are [params]: [None] is the OverflowError raised for a parameter that
    is not a 64-bit integer, with nothing read, written or committed. *)
Definition execute_query {A} (params : list Z) (f : DB → A) : M (option A) :=
  if forallb int64 params then a ← read_db f; mret (Some a)
  else mret None.

Definition execute_update (params : list Z) (f : DB → DB) : M (option unit) :=
  if forallb int64 params then run_db (λ d, (tt, f d));; mret (Some tt)
  else mret None.

(** [db_get_messages_since(since_id)]: the limit is the default, 50.  The
    handler catches nothing: an exception is answered with status 500. *)
Definition poll_handler (since : IntParam) : M Response :=
  match int_param 0 since with
  | None => mret ServerError
  | Some since_id =>
      messages ← execute_query [since_id; 50] (db_get_messages_since since_id 50);
      match messages with
      | Some messages => mret (MessagesOk messages)
      | None => mret ServerError
      end
  end.

Definition history_handler (limit : IntParam) : M Response :=
  match int_param 20 limit with
  | None => mret ServerError
  | Some limit =>
      messages ← execute_query [limit] (db_get_recent limit);
      match messages with
      | Some messages => mret (MessagesOk messages)
      | None => mret ServerError
      end
  end.

(** [int(request.match_info['id'])]: the route always supplies the
    segment, so only a literal or a rejected string occur. *)
Definition delivered_handler (msg_id : option Z) : M Response :=
  match msg_id with
  | None => mret ServerError
  | Some msg_id =>
      done ← execute_update [msg_id] (db_mark_delivered msg_id);
      match done with
      | Some _ => mret Ok
      | None => mret ServerError
      end
  end.

Inductive Request :=
  | PostSpeak (b : Body)
  | PostRespond (b : Body)
  | GetPoll (since : IntParam)
  | GetHistory (limit : IntParam)
  | PostDelivered (msg_id : option Z).

Definition handle (r : Request) : M Response :=
  match r with
  | PostSpeak b => speak_handler b
  | PostRespond b => respond_handler b
  | GetPoll since => poll_handler since
  | GetHistory limit => history_handler limit
  | PostDelivered msg_id => delivered_handler msg_id
  end.

(** Worlds the server can be in between two requests, from a fresh
    database file. *)
Inductive reachable : World → Prop :=
  | reachable_init : reachable initial_world
  | reachable_step w r : reachable w → reachable (handle r w).2.

End Pipeline.

(** The relay outcomes after which [call_main_session] returns [None], and
    the synthesis outcomes after which [generate_tts] does. *)
Definition relay_failed (o : HttpOutcome) : bool :=
  match o with
  | HttpTimeout | HttpError => true
  | HttpContent c => negb (Text.nonempty c)
  | HttpContentList => false
  end.

Definition tts_failed (o : TtsOutcome) : bool :=
  match o with
  | TtsTimeout | TtsError => true
  | TtsExit file_exists => negb file_exists
  end.

(** An environment that always answers the same way; the clock reads
    [t0], [t1], ... *)
Definition constant_env (h : HttpOutcome) (t : TtsOutcome) : Env :=
  mkEnv (λ n, "t" +:+ pretty n) (λ _ _ _, h) (λ _ _ _, t).

(** What holds of every row the handlers write: its text is not empty, and
    it is either a user row without audio or an agent row. *)
Definition row_ok (r : Row) : Prop :=
  Text.nonempty (text r) = true ∧
  ((direction r = "user" ∧ audio_path r = None) ∨ direction r = "jarvis").

Definition store_ok (d : DB) : Prop :=
  ∀ k r, messages d !! k = Some r → row_ok r.

(** Rows that appear between two consecutive commits carry no audio. *)
Definition created_bare (d d' : DB) : Prop :=
  ∀ k r, messages d !! k = None → messages d' !! k = Some r →
         audio_path r = None.

Definition good_history (d : DB) (h : list DB) : Prop :=
  last h = Some d ∧
  (∀ d', d' ∈ h → store_ok d') ∧
  (∀ i d1 d2, h !! i = Some d1 → h !! S i = Some d2 → created_bare d1 d2).


(** ** Browser side: buffering of transcribed segments *)

Module Client.
Import Text.

(** [String.prototype.toLowerCase] on code units below 256. *)
Definition lower_unit (c : ascii) : ascii :=
  if in_range 65 90 c || in_range 192 214 c || in_range 216 222 c
  then ascii_of_N (code c + 32) else c.

Fixpoint toLowerCase (s : string) : string :=
  match s with
  | String c s' => String (lower_unit c) (toLowerCase s')
  | EmptyString => EmptyString
  end.

Definition trim (s : string) : string := strip js_isspace s.

(** [s.endsWith(t)]: [t] is a suffix of [s]. *)
Fixpoint endsWith (s t : string) : bool :=
  String.eqb s t ||
  match s with
  | String _ s' => endsWith s' t
  | EmptyString => false
  end.

(** [s.includes(t)]: [t] occurs in [s]. *)
Fixpoint includes (s t : string) : bool :=
  String.prefix t s ||
  match s with
  | String _ s' => includes s' t
  | EmptyString => false
  end.

(** [arr.join(' ')] *)
Definition join (l : list string) : string := String.concat " " l.

(** Regular expressions over single-unit atoms, matched by backtracking. *)
Inductive Atom :=
  | One (p : ascii → bool)      (* a character of the class *)
  | Opt (p : ascii → bool)      (* x? *)
  | Star (p : ascii → bool)     (* x* *)
  | EndOfInput.                 (* $ *)

Definition eat (p : ascii → bool) (k : string → bool) (s : string) : bool :=
  match s with
  | String c s' => p c && k s'
  | EmptyString => false
  end.

(** Whether the pattern matches starting at the head of [s]. *)
Fixpoint matches_here (r : list Atom) : string → bool :=
  match r with
  | [] => λ _, true
  | One p :: r' => eat p (matches_here r')
  | Opt p :: r' => λ s, eat p (matches_here r') s || matches_here r' s
  | Star p :: r' =>
      fix star (s : string) : bool :=
        match s with
        | String c s' => (p c && star s') || matches_here r' s
        | EmptyString => matches_here r' s
        end
  | EndOfInput :: r' =>
      λ s, match s with EmptyString => matches_here r' s | String _ _ => false end
  end.

(** [s.replace(re, '')] for a pattern that ends in [$]: every match runs to
    the end of the input, so the leftmost one is cut off. *)
Fixpoint replace_to_end (r : list Atom) (s : string) : string :=
  if matches_here r s then EmptyString
  else match s with
       | String c s' => String c (replace_to_end r s')
       | EmptyString => EmptyString
       end.

(** Canonicalize of a case-insensitive pattern without the [u] flag: the
    upper-case form when it is a single unit.  The two units whose
    upper-case form lies above 255 stand for themselves; nothing else maps
    to them, so equality of canonical forms is as in the source. *)
Definition canonicalize (c : ascii) : ascii :=
  if in_range 97 122 c || in_range 224 246 c || in_range 248 254 c
  then ascii_of_N (code c - 32) else c.

Definition ci (l : ascii) (c : ascii) : bool :=
  Ascii.eqb (canonicalize c) (canonicalize l).

Definition is_dot (c : ascii) : bool := Ascii.eqb c ".".

(** [/\s*over\.?\s*$/i], and what follows its leading [\s*]. *)
Definition after_spaces : list Atom :=
  [One (ci "o"); One (ci "v"); One (ci "e"); One (ci "r");
   Opt is_dot; Star js_isspace; EndOfInput].

Definition over_re : list Atom := Star js_isspace :: after_spaces.

Record State := mkState {
  speechBuffer : list string;
  sent : list string          (* texts passed to [sendToServer], oldest first *)
}.

Definition push (x : string) (st : State) : State :=
  mkState (speechBuffer st ++ [x]) (sent st).

Definition sendToServer (text : string) (st : State) : State :=
  mkState (speechBuffer st) (sent st ++ [text]).

(** [sendBufferedSpeech()] *)
Definition sendBufferedSpeech (st : State) : State :=
  match speechBuffer st with
  | [] => st
  | _ =>
      let fullText := trim (join (speechBuffer st)) in
      let st' := mkState [] (sent st) in
      if nonempty fullText then sendToServer fullText st' else st'
  end.

(** The test of [processAudio] on the trimmed, lower-cased segment. *)
Definition said_over (text : string) : bool :=
  let lowerText := toLowerCase text in
  includes lowerText "over" &&
  (endsWith lowerText "over" || endsWith lowerText "over.").

(** [processAudio(blob)] from the point where the transcription answer
    [data.transcript] is known ([None]: the field is missing or the request
    failed). *)
Definition processAudio (overMode : bool) (transcript : option string)
    (st : State) : State :=
  match transcript with
  | Some t =>
      if nonempty t && negb (String.eqb t "(silence)") then
        let text := trim t in
        if overMode then
          if said_over text then
            let cleanText := trim (replace_to_end over_re text) in
            sendBufferedSpeech (if nonempty cleanText then push cleanText st else st)
          else push text st
        else sendToServer text st
      else st
  | None => st
  end.

(** [toggleListening()] turning listening on in over mode: the buffer is
    emptied. *)
Definition start_listening (st : State) : State := mkState [] (sent st).

Definition feed (overMode : bool) (segments : list string) (st : State) : State :=
  foldl (λ st seg, processAudio overMode (Some seg) st) st segments.

(** The flush rule in the words of the specification: trailing punctuation
    is trimmed, and what is left ends with the cue word in any case. *)
Definition is_punctuation (c : ascii) : bool :=
  Ascii.eqb c "." || Ascii.eqb c "," || Ascii.eqb c "!" || Ascii.eqb c "?" ||
  Ascii.eqb c ";" || Ascii.eqb c ":".

Definition spec_flush_trigger (segment : string) : bool :=
  endsWith (toLowerCase (rstrip is_punctuation segment)) "over".

(** The cue as the code accepts it: the word in any case, with at most one
    full stop after it. *)
Definition is_cue (w : string) : Prop :=
  toLowerCase w = "over" ∨ toLowerCase w = "over.".

End Client.

Import Client.


(** ** Transcription endpoint *)

(** What receiving the upload, the converter and the recogniser come to in
    [transcribe_handler]: an exception anywhere (caught, status 500), a
    converter that leaves no wav file, or the texts of the recognised
    segments. *)
Inductive TranscribeOutcome :=
  | TranscribeRaised (error : string)
  | NoWavFile
  | Segments (texts : list string).

Inductive TranscribeResponse :=
  | TranscribeError (error : string)      (* status 500, no [transcript] *)
  | Transcript (transcript : string).

(** [' '.join([s.text for s in segments]).strip()], and ['(silence)'] when
    that is empty.  The [req_id] member of the answer is only logged. *)
Definition transcribe_handler (o : TranscribeOutcome) : TranscribeResponse :=
  match o with
  | TranscribeRaised e => TranscribeError e
  | NoWavFile => TranscribeError "Audio conversion failed"
  | Segments texts =>
      let transcript := Text.strip Text.py_isspace (String.concat " " texts) in
      if negb (Text.nonempty transcript) then Transcript "(silence)"
      else Transcript transcript
  end.

(** [data.transcript] as the browser reads it from the answer. *)
Definition response_transcript (r : TranscribeResponse) : option string :=
  match r with
  | TranscribeError _ => None
  | Transcript t => Some t
  end.

(** One recorded chunk from upload to buffer: [processAudio] on the answer
    of [transcribe_handler]. *)
Definition hear (overMode : bool) (o : TranscribeOutcome) (st : Client.State)
    : Client.State :=
  Client.processAudio overMode (response_transcript (transcribe_handler o)) st.

(** What drives the buffer while listening: a chunk comes back from
    transcription, or the Send button is clicked
    ([if (speechBuffer.length > 0) sendBufferedSpeech()]). *)
Inductive BufferEvent :=
  | Heard (o : TranscribeOutcome)
  | SendClicked.

Definition buffer_step (overMode : bool) (st : Client.State) (e : BufferEvent)
    : Client.State :=
  match e with
  | Heard o => hear overMode o st
  | SendClicked =>
      match Client.speechBuffer st with
      | [] => st
      | _ :: _ => Client.sendBufferedSpeech st
      end
  end.

(** A string whose first unit is not white space for Python. *)
Definition head_solid (s : string) : bool :=
  match s with
  | String c _ => negb (Text.py_isspace c)
  | EmptyString => false
  end.

(** Everything buffered, and everything sent since [out], starts with a
    unit that is not white space. *)
Definition solid_state (st : Client.State) (out : list string) : Prop :=
  Forall (λ t, head_solid t = true) (Client.speechBuffer st) ∧
  ∃ new, Client.sent st = out ++ new ∧ Forall (λ t, head_solid t = true) new.

(** ** Browser side: the message feed and the playback queue *)

Module Feed.
Import Text.

(** [audioQueue] and [isPlaying], with the [path] and [id] held by the
    suspended call of [playNextAudio] and the ids posted to
    [/api/delivered] so far. *)
Record Player := mkPlayer {
  audioQueue : list (string * Z);
  isPlaying : bool;
  current : option (string * Z);
  posted : list Z
}.

Definition idle_player : Player := mkPlayer [] false None [].

(** [playNextAudio()] up to its first [await]. *)
Definition playNextAudio (p : Player) : Player :=
  if isPlaying p then p
  else match audioQueue p with
       | [] => p
       | x :: q => mkPlayer q true (Some x) (posted p)
       end.

(** [queueAudio(audioPath, msgId)] *)
Definition queueAudio (audioPath : string) (msgId : Z) (p : Player) : Player :=
  playNextAudio
    (mkPlayer (audioQueue p ++ [(audioPath, msgId)]) (isPlaying p) (current p) (posted p)).

(** How the awaited playback ends: the promise resolves ([onended],
    [onerror] or the 60 s timer), or [new Audio]/[play()] throws. *)
Inductive PlayOutcome :=
  | Resolved
  | Threw.

(** [playNextAudio()] from the point where its awaits are over. *)
Definition settle (o : PlayOutcome) (p : Player) : Player :=
  match current p with
  | None => p
  | Some (_, msgId) =>
      let posted' := match o with
                     | Resolved => posted p ++ [msgId]
                     | Threw => posted p
                     end in
      let p' := mkPlayer (audioQueue p) false None posted' in
      match audioQueue p with
      | [] => p'
      | _ :: _ => playNextAudio p'
      end
  end.

Inductive PlayerEvent :=
  | Queued (audioPath : string) (msgId : Z)
  | Settled (o : PlayOutcome).

Definition player_step (p : Player) (e : PlayerEvent) : Player :=
  match e with
  | Queued audioPath msgId => queueAudio audioPath msgId p
  | Settled o => settle o p
  end.

Definition queued_ids (es : list PlayerEvent) : list Z :=
  omap (λ e, match e with Queued _ i => Some i | Settled _ => None end) es.

Definition never_threw (es : list PlayerEvent) : bool :=
  forallb (λ e, match e with Settled Threw => false | _ => true end) es.

(** Ids of what is playing and waiting, in order. *)
Definition outstanding (p : Player) : list Z :=
  (match current p with Some x => [x.2] | None => [] end) ++ (audioQueue p).*2.

(** [lastMessageId], [displayedMessageIds], the message elements appended
    to the transcript (id, class, text), and the player. *)
Record View := mkView {
  lastMessageId : Z;
  displayedMessageIds : gset Z;
  shown : list (Z * string * string);
  player : Player
}.

Definition fresh_view : View := mkView 0 ∅ [] idle_player.

Definition addMessage (text type : string) (i : Z) (v : View) : View :=
  mkView (lastMessageId v) (displayedMessageIds v)
         (shown v ++ [(i, type, text)]) (player v).

Definition mark_displayed (i : Z) (v : View) : View :=
  mkView (lastMessageId v) ({[i]} ∪ displayedMessageIds v) (shown v) (player v).

Definition advance (i : Z) (v : View) : View :=
  mkView (Z.max (lastMessageId v) i) (displayedMessageIds v) (shown v) (player v).

Definition queue_if_audio (msg : Message) (v : View) : View :=
  match msg_audio_path msg with
  | Some p =>
      if nonempty p
      then mkView (lastMessageId v) (displayedMessageIds v) (shown v)
                  (queueAudio p (id msg) (player v))
      else v
  | None => v
  end.

(** The body of the [for] loop of [pollMessages()]. *)
Definition poll_one (v : View) (msg : Message) : View :=
  advance (id msg)
    (if decide (id msg ∈ displayedMessageIds v) then v
     else mark_displayed (id msg)
            (if String.eqb (msg_direction msg) "jarvis"
             then queue_if_audio msg (addMessage (msg_text msg) "jarvis" (id msg) v)
             else v)).

(** [pollMessages()] on [data.messages]; [None] when the request fails or
    the member is missing. *)
Definition pollMessages (messages : option (list Message)) (v : View) : View :=
  match messages with
  | Some l => foldl poll_one v l
  | None => v
  end.

(** The body of the [for] loop of [loadHistory()]. *)
Definition history_one (v : View) (msg : Message) : View :=
  if decide (id msg ∈ displayedMessageIds v) then v
  else advance (id msg)
         (mark_displayed (id msg)
            (addMessage (msg_text msg) (msg_direction msg) (id msg) v)).

Definition loadHistory (messages : option (list Message)) (v : View) : View :=
  match messages with
  | Some l => foldl history_one v l
  | None => v
  end.

Definition response_messages (r : Response) : option (list Message) :=
  match r with
  | MessagesOk l => Some l
  | _ => None
  end.

(** One tick of the polling timer against the server:
    [fetch('/api/poll?since=' + lastMessageId)] and the loop over the
    answer. *)
Definition poll_round (w : World) (v : View) : View :=
  pollMessages
    (response_messages (poll_handler (ParamInt (lastMessageId v)) w).1) v.

(** [fetch('/api/history?limit=20')] and the loop over the answer. *)
Definition history_round (w : World) (v : View) : View :=
  loadHistory (response_messages (history_handler (ParamInt 20) w).1) v.

Definition poll_rounds (n : nat) (w : World) (v : View) : View :=
  Nat.iter n (poll_round w) v.

(** The agent messages of a batch that are not yet displayed, as the
    transcript shows them. *)
Definition new_agent_messages (seen : gset Z) (l : list Message)
    : list (Z * string * string) :=
  omap (λ msg, if decide (id msg ∈ seen) then None
               else if String.eqb (msg_direction msg) "jarvis"
                    then Some (id msg, "jarvis", msg_text msg) else None) l.

End Feed.

(** * Properties *)

(** ** Ordering of reads *)

Section Ordering.

Global Instance id_le_total : Total id_le.
Proof. intros a b; unfold id_le; lia. Qed.
Global Instance id_le_trans : Transitive id_le.
Proof. intros a b c; unfold id_le; lia. Qed.
Global Instance id_ge_total : Total id_ge.
Proof. intros a b; unfold id_ge; lia. Qed.
Global Instance id_ge_trans : Transitive id_ge.
Proof. intros a b c; unfold id_ge; lia. Qed.

Lemma NoDup_keys_where (c : Z) (m : gmap Z Row) :
  NoDup (where_id_gt c (map_to_list m)).*1.
Proof.
  apply (sublist_NoDup _ (map_to_list m).*1).
  - apply NoDup_fst_map_to_list.
  - apply fmap_sublist, sublist_filter.
Qed.

Lemma strictly_ascending (l : list Z) :
  StronglySorted Z.le l → NoDup l → StronglySorted Z.lt l.
Proof.
  induction 1 as [|x l Hs IH Hall]; intros Hnd; [constructor|].
  apply NoDup_cons in Hnd as [Hx Hnd].
  constructor; [by apply IH|].
  rewrite Forall_forall in Hall |- *. intros y Hy.
  specialize (Hall y Hy).
  assert (x ≠ y) by (intros ->; done). lia.
Qed.

Lemma order_by_id_asc_keys (l : list (Z * Row)) :
  NoDup l.*1 → StronglySorted Z.lt (order_by_id_asc l).*1.
Proof.
  intros Hnd. apply strictly_ascending.
  - apply (StronglySorted_fmap fst id_le Z.le); [done|].
    apply StronglySorted_merge_sort; apply _.
  - unfold order_by_id_asc. by rewrite merge_sort_Permutation.
Qed.

Lemma sql_limit_prefix {A} (n : Z) (l : list A) :
  ∃ rest, l = sql_limit n l ++ rest.
Proof.
  unfold sql_limit. case_decide.
  - exists []. by rewrite app_nil_r.
  - exists (drop (Z.to_nat n) l). by rewrite take_drop.
Qed.

Lemma elem_of_sql_limit {A} (n : Z) (l : list A) x :
  x ∈ sql_limit n l → x ∈ l.
Proof.
  destruct (sql_limit_prefix n l) as [rest Hl]. intros Hx.
  rewrite Hl. apply elem_of_app. by left.
Qed.

Lemma select_columns_id (l : list (Z * Row)) :
  id <$> (select_columns <$> l) = l.*1.
Proof. rewrite <-list_fmap_compose. by apply list_fmap_ext. Qed.

Lemma elem_of_where_ordered (c : Z) (m : gmap Z Row) kr :
  kr ∈ order_by_id_asc (where_id_gt c (map_to_list m)) ↔
  m !! kr.1 = Some kr.2 ∧ c < kr.1.
Proof.
  unfold order_by_id_asc, where_id_gt.
  rewrite merge_sort_Permutation, list_elem_of_filter.
  destruct kr as [k r]; simpl. rewrite elem_of_map_to_list. tauto.
Qed.

End Ordering.

Lemma read_since_ids_sorted (d : DB) (cursor limit : Z) :
  StronglySorted Z.lt (id <$> db_get_messages_since cursor limit d).
Proof.
  unfold db_get_messages_since.
  set (all := order_by_id_asc (where_id_gt cursor (map_to_list (messages d)))).
  destruct (sql_limit_prefix limit all) as [rest Hall].
  rewrite select_columns_id.
  pose proof (order_by_id_asc_keys _ (NoDup_keys_where cursor (messages d))) as Hs.
  fold all in Hs. rewrite Hall, fmap_app in Hs.
  by apply StronglySorted_app_1_l in Hs.
Qed.

Lemma read_since_ids_above (d : DB) (cursor limit : Z) :
  Forall (λ m, cursor < id m) (db_get_messages_since cursor limit d).
Proof.
  unfold db_get_messages_since.
  rewrite Forall_fmap, Forall_forall. intros kr Hkr. simpl.
  apply elem_of_sql_limit in Hkr.
  by apply elem_of_where_ordered in Hkr as [_ ?].
Qed.

(** C2. Whatever the store holds (so in particular after any sequence of
    appends), and for every cursor and limit, [db_get_messages_since]
    returns entries with strictly ascending ids, each greater than the
    cursor. *)
Theorem read_since_ascending (d : DB) (cursor limit : Z) :
  StronglySorted Z.lt (id <$> db_get_messages_since cursor limit d) ∧
  Forall (λ m, cursor < id m) (db_get_messages_since cursor limit d).
Proof.
  split; [apply read_since_ids_sorted|apply read_since_ids_above].
Qed.

(** ** Sorting sees only the key *)

Section SortColumns.
Context {A : Type} (R : relation A) `{!RelDecision R}.
Variable g : A → A.
Hypothesis g_keeps_order : ∀ x y, R (g x) (g y) ↔ R x y.

Lemma list_merge_fmap (l1 l2 : list A) :
  list_merge R (g <$> l1) (g <$> l2) = g <$> list_merge R l1 l2.
Proof.
  revert l2. induction l1 as [|x1 l1 IH1]; intros l2.
  { rewrite fmap_nil. by rewrite !list_merge_nil_l. }
  induction l2 as [|x2 l2 IH2].
  { rewrite fmap_nil. by rewrite !list_merge_nil_r. }
  rewrite !fmap_cons, !list_merge_cons.
  destruct (decide (R (g x1) (g x2))) as [Hg|Hg], (decide (R x1 x2)) as [Hr|Hr];
    try (exfalso; pose proof (g_keeps_order x1 x2); tauto).
  - rewrite fmap_cons. f_equal. apply (IH1 (x2 :: l2)).
  - rewrite fmap_cons. f_equal. apply IH2.
Qed.

Local Abbreviation on_stack :=
  (fmap (M:=list) (fmap (M:=option) (fmap (M:=list) g))).

Lemma merge_list_to_stack_fmap (st : list (option (list A))) (l : list A) :
  merge_list_to_stack R (on_stack st) (g <$> l)
  = on_stack (merge_list_to_stack R st l).
Proof.
  revert l. induction st as [|[l'|] st IH]; intros l; [done| |done].
  rewrite fmap_cons. simpl. f_equal.
  rewrite list_merge_fmap. apply IH.
Qed.

Lemma merge_stack_fmap (st : list (option (list A))) :
  merge_stack R (on_stack st) = g <$> merge_stack R st.
Proof.
  induction st as [|[l'|] st IH]; [done| |done].
  rewrite fmap_cons. simpl. rewrite IH. apply list_merge_fmap.
Qed.

Lemma merge_sort_aux_fmap (st : list (option (list A))) (l : list A) :
  merge_sort_aux R (on_stack st) (g <$> l)
  = g <$> merge_sort_aux R st l.
Proof.
  revert st. induction l as [|x l IH]; intros st; simpl.
  - apply merge_stack_fmap.
  - rewrite <-IH. f_equal. apply (merge_list_to_stack_fmap st [x]).
Qed.

Lemma merge_sort_fmap (l : list A) :
  merge_sort R (g <$> l) = g <$> merge_sort R l.
Proof. apply (merge_sort_aux_fmap [] l). Qed.

End SortColumns.

(** ** Reads do not look at the [delivered] column *)

Section Erasure.

Lemma where_id_gt_on_row (f : Row → Row) (c : Z) (l : list (Z * Row)) :
  where_id_gt c (on_row f <$> l) = on_row f <$> where_id_gt c l.
Proof.
  unfold where_id_gt. induction l as [|kr l IH]; [done|].
  rewrite fmap_cons, !filter_cons. simpl.
  destruct (decide (c < kr.1)); rewrite IH; done.
Qed.

Lemma sql_limit_fmap {A B} (f : A → B) (n : Z) (l : list A) :
  sql_limit n (f <$> l) = f <$> sql_limit n l.
Proof. unfold sql_limit. case_decide; [done|]. by rewrite fmap_take. Qed.

Lemma map_to_list_on_row (f : Row → Row) (m : gmap Z Row) :
  map_to_list (f <$> m) = on_row f <$> map_to_list m.
Proof.
  rewrite map_to_list_fmap. apply list_fmap_ext. by intros ? [k r] ?.
Qed.

Lemma select_columns_forget (l : list (Z * Row)) :
  select_columns <$> (on_row forget_delivered <$> l) = select_columns <$> l.
Proof. rewrite <-list_fmap_compose. apply list_fmap_ext. by intros ? [k r] ?. Qed.

(** Both queries factor through the table with [delivered] blanked. *)
Lemma db_get_messages_since_forget (c n : Z) (d : DB) :
  db_get_messages_since c n d
  = db_get_messages_since c n (mkDB (forget_delivered <$> messages d) (sqlite_sequence d)).
Proof.
  unfold db_get_messages_since, order_by_id_asc. simpl.
  rewrite map_to_list_on_row, where_id_gt_on_row.
  rewrite (merge_sort_fmap id_le (on_row forget_delivered)) by done.
  by rewrite sql_limit_fmap, select_columns_forget.
Qed.

Lemma db_get_recent_forget (n : Z) (d : DB) :
  db_get_recent n d
  = db_get_recent n (mkDB (forget_delivered <$> messages d) (sqlite_sequence d)).
Proof.
  unfold db_get_recent, order_by_id_desc. simpl.
  rewrite map_to_list_on_row.
  rewrite (merge_sort_fmap id_ge (on_row forget_delivered)) by done.
  by rewrite sql_limit_fmap, select_columns_forget.
Qed.

Lemma forget_mark_delivered (i : Z) (m : gmap Z Row) :
  forget_delivered <$> alter set_delivered i m = forget_delivered <$> m.
Proof.
  apply map_eq. intros k. rewrite !lookup_fmap, lookup_alter.
  case_decide; [subst|done]. by destruct (m !! k).
Qed.

End Erasure.

(** C7. Marking an entry delivered changes neither what the poll read
    returns (for any cursor and limit) nor what the history read returns
    (for any limit): the [delivered] column never decides whether an entry
    is returned. *)
Theorem delivered_never_gates_reads (d : DB) (cursor limit msg_id : Z) :
  db_get_messages_since cursor limit (db_mark_delivered msg_id d)
    = db_get_messages_since cursor limit d ∧
  db_get_recent limit (db_mark_delivered msg_id d) = db_get_recent limit d.
Proof.
  split.
  - rewrite (db_get_messages_since_forget _ _ (db_mark_delivered msg_id d)),
      (db_get_messages_since_forget _ _ d).
    simpl. by rewrite forget_mark_delivered.
  - rewrite (db_get_recent_forget _ (db_mark_delivered msg_id d)),
      (db_get_recent_forget _ d).
    simpl. by rewrite forget_mark_delivered.
Qed.

(** ** Acknowledgement *)

Section Ack.

Lemma DB_eq (d1 d2 : DB) :
  messages d1 = messages d2 → sqlite_sequence d1 = sqlite_sequence d2 → d1 = d2.
Proof. destruct d1, d2; simpl; by intros -> ->. Qed.

Lemma set_delivered_twice (r : Row) : set_delivered (set_delivered r) = set_delivered r.
Proof. done. Qed.

Lemma mark_delivered_twice (i : Z) (d : DB) :
  db_mark_delivered i (db_mark_delivered i d) = db_mark_delivered i d.
Proof.
  apply DB_eq; [|done]. simpl. apply map_eq. intros k.
  destruct (decide (i = k)) as [->|Hne].
  - rewrite !lookup_alter_eq. by destruct (messages d !! k).
  - by rewrite !lookup_alter_ne.
Qed.

Lemma mark_delivered_unknown (i : Z) (d : DB) :
  messages d !! i = None → db_mark_delivered i d = d.
Proof.
  intros Hi. apply DB_eq; [|done]. simpl. apply map_eq. intros k.
  rewrite lookup_alter. case_decide; [subst|done]. by rewrite Hi.
Qed.

End Ack.

Lemma delivered_handler_run (msg_id : Z) (w : World) :
  delivered_handler (Some msg_id) w
  = if int64 msg_id
    then (Ok, mkWorld (db_mark_delivered msg_id (db w))
                      (commits w ++ [db_mark_delivered msg_id (db w)])
                      (clock w) (relay_calls w) (tts_calls w))
    else (ServerError, w).
Proof.
  unfold delivered_handler, execute_update. cbn [forallb].
  rewrite andb_true_r. by destruct (int64 msg_id).
Qed.

(** C6. Acknowledging an entry twice leaves the store as acknowledging it
    once does; acknowledging an id the store does not hold leaves the store
    as it was.  The handler answers [ok], whether the id is held or not,
    for every id that is a 64-bit signed integer; for any other id it
    answers with status 500 and leaves the store as it was. *)
Theorem ack_idempotent (w : World) (msg_id : Z) :
  db_mark_delivered msg_id (db_mark_delivered msg_id (db w))
    = db_mark_delivered msg_id (db w) ∧
  (messages (db w) !! msg_id = None → db_mark_delivered msg_id (db w) = db w) ∧
  delivered_handler (Some msg_id) w
    = (if int64 msg_id
       then (Ok, mkWorld (db_mark_delivered msg_id (db w))
                         (commits w ++ [db_mark_delivered msg_id (db w)])
                         (clock w) (relay_calls w) (tts_calls w))
       else (ServerError, w)) ∧
  db (delivered_handler (Some msg_id) (delivered_handler (Some msg_id) w).2).2
    = db (delivered_handler (Some msg_id) w).2 ∧
  (messages (db w) !! msg_id = None →
     db (delivered_handler (Some msg_id) w).2 = db w).
Proof.
  split; [apply mark_delivered_twice|].
  split; [apply mark_delivered_unknown|].
  split; [apply delivered_handler_run|].
  rewrite !delivered_handler_run. destruct (int64 msg_id) eqn:Hid.
  - cbn [snd db]. rewrite ?delivered_handler_run, ?Hid. cbn [snd db].
    split; [apply mark_delivered_twice|apply mark_delivered_unknown].
  - cbn [snd]. rewrite ?delivered_handler_run, ?Hid. done.
Qed.

Lemma ack_idempotent_witness :
  messages (db initial_world) !! 7 = None ∧
  db_mark_delivered 7 (db initial_world) = db initial_world.
Proof.
  split; [reflexivity|].
  apply (ack_idempotent initial_world 7).
  reflexivity.
Defined.

(** C6, as first stated: an id the store does not hold is acknowledged
    without an error.  The id [2^63] is held by no store, and the handler
    answers it with status 500. *)
Lemma ack_of_id_beyond_64_bits_is_an_error :
  messages (db initial_world) !! (2 ^ 63) = None ∧
  delivered_handler (Some (2 ^ 63)) initial_world = (ServerError, initial_world).
Proof. split; reflexivity. Qed.

(** ** Frame of the writes *)

Section Frame.

Lemma foldr_max_ge (l : list Z) (x : Z) : x ∈ l → x ≤ foldr Z.max 0 l.
Proof.
  induction l as [|y l IH]; [by intros ?%elem_of_nil|].
  intros [->|Hx]%elem_of_cons; simpl; [lia|]. specialize (IH Hx). lia.
Qed.

Lemma max_rowid_ge (m : gmap Z Row) (k : Z) (r : Row) :
  m !! k = Some r → k ≤ max_rowid m.
Proof.
  intros Hk. apply foldr_max_ge.
  apply list_elem_of_fmap. exists (k, r). split; [done|].
  by apply elem_of_map_to_list.
Qed.

Lemma next_rowid_fresh (d : DB) : messages d !! next_rowid d = None.
Proof.
  destruct (messages d !! next_rowid d) as [r|] eqn:Hk; [|done].
  apply max_rowid_ge in Hk. unfold next_rowid in Hk. lia.
Qed.


Lemma lookup_update_audio_path (p : string) (i k : Z) (d : DB) :
  messages (db_update_audio_path p i d) !! k =
  if decide (i = k) then (λ r, set_audio_path r p) <$> messages d !! k
  else messages d !! k.
Proof. simpl. rewrite lookup_alter. by case_decide; subst. Qed.

Lemma insert_keeps_rows now dir txt ap (d : DB) (k : Z) (r : Row) :
  messages d !! k = Some r →
  messages (db_insert_message now dir txt ap d).2 !! k = Some r.
Proof.
  intros Hk. simpl. rewrite lookup_insert_ne; [done|].
  intros Heq. rewrite <-Heq, next_rowid_fresh in Hk. done.
Qed.

End Frame.

(** C10. [db_mark_delivered] touches nothing but the [delivered] column of
    the row with the given id: every other row is as before, that row keeps
    its timestamp, direction, text and audio path (its id is its key), no
    row appears or disappears, and the AUTOINCREMENT counter stays.  And
    none of the writes of the program (insert, audio-path update, mark
    delivered) takes a row whose [delivered] is set back to unset. *)
Theorem mark_delivered_frame (d : DB) (msg_id : Z) :
  (∀ k, k ≠ msg_id →
     messages (db_mark_delivered msg_id d) !! k = messages d !! k) ∧
  messages (db_mark_delivered msg_id d) !! msg_id
    = set_delivered <$> messages d !! msg_id ∧
  (∀ r, timestamp (set_delivered r) = timestamp r ∧
        direction (set_delivered r) = direction r ∧
        text (set_delivered r) = text r ∧
        audio_path (set_delivered r) = audio_path r) ∧
  sqlite_sequence (db_mark_delivered msg_id d) = sqlite_sequence d ∧
  (∀ op k r, messages d !! k = Some r → delivered r ≠ 0 →
     ∃ r', messages (apply_op op d) !! k = Some r' ∧ delivered r' ≠ 0).
Proof.
  split; [|split; [|split; [|split]]].
  - intros k Hk. simpl. by rewrite lookup_alter_ne.
  - simpl. by rewrite lookup_alter_eq.
  - done.
  - done.
  - intros op k r Hk Hr. destruct op as [now dir txt ap|p i|i].
    + exists r. split; [|done]. by apply insert_keeps_rows.
    + simpl. rewrite lookup_alter. case_decide; subst; rewrite Hk; simpl; eauto.
    + simpl. rewrite lookup_alter. case_decide; subst; rewrite Hk; simpl; eauto.
Qed.

Lemma mark_delivered_frame_witness :
  let d := db_mark_delivered 1 (db_insert_message "t0" "user" "hi" None (init_db None)).2 in
  ∃ r', messages (apply_op (UpdateAudioPath "/audio/x.mp3" 1) d) !! 1 = Some r'
        ∧ delivered r' ≠ 0.
Proof.
  intros d.
  destruct (mark_delivered_frame d 1) as (_ & _ & _ & _ & Hmono).
  apply (Hmono (UpdateAudioPath "/audio/x.mp3" 1) 1 (mkRow "t0" "user" "hi" None 1)).
  - reflexivity.
  - simpl. lia.
Defined.

(** ** Batches of a poll *)

Section Batches.

Lemma ordered_where_NoDup (c : Z) (m : gmap Z Row) :
  NoDup (order_by_id_asc (where_id_gt c (map_to_list m))).
Proof.
  unfold order_by_id_asc. rewrite merge_sort_Permutation.
  apply NoDup_filter, NoDup_map_to_list.
Qed.

(** What lies after a non-empty prefix of the ordered pending rows is what
    the same query returns from the last id of that prefix. *)
Lemma ordered_where_after (c : Z) (m : gmap Z Row) (n : nat) (kl : Z * Row) :
  let all := order_by_id_asc (where_id_gt c (map_to_list m)) in
  last (take n all) = Some kl →
  order_by_id_asc (where_id_gt kl.1 (map_to_list m)) = drop n all.
Proof.
  intros all Hlast.
  pose proof (order_by_id_asc_keys _ (NoDup_keys_where c m)) as Hkeys.
  fold all in Hkeys.
  assert (Hsplit : all = take n all ++ drop n all) by (by rewrite take_drop).
  apply last_Some in Hlast as [front Hfront].
  assert (Hkl : kl ∈ all).
  { rewrite Hsplit, Hfront. set_solver. }
  apply elem_of_where_ordered in Hkl as [_ Hc].
  rewrite Hsplit, Hfront, !fmap_app in Hkeys. simpl in Hkeys.
  apply (StronglySorted_unique_strong id_le).
  - intros x1 x2 Hx1 Hx2 H12 H21.
    apply elem_of_where_ordered in Hx1 as [Hx1 _].
    assert (Hx2' : x2 ∈ all) by (rewrite Hsplit; set_solver).
    apply elem_of_where_ordered in Hx2' as [Hx2' _].
    unfold id_le in *. destruct x1 as [k1 r1], x2 as [k2 r2]; simpl in *.
    assert (k1 = k2) by lia. subst. congruence.
  - apply StronglySorted_merge_sort; apply _.
  - assert (Hs : StronglySorted id_le all)
      by (apply StronglySorted_merge_sort; apply _).
    rewrite Hsplit in Hs. by apply StronglySorted_app_1_r in Hs.
  - apply NoDup_Permutation.
    + apply ordered_where_NoDup.
    + pose proof (ordered_where_NoDup c m) as Hnd. fold all in Hnd.
      rewrite Hsplit in Hnd. by apply NoDup_app in Hnd as (_ & _ & ?).
    + intros kr. rewrite elem_of_where_ordered. split.
      * intros [Hm Hgt].
        assert (Hin : kr ∈ all) by (apply elem_of_where_ordered; split; [done|lia]).
        rewrite Hsplit, Hfront in Hin.
        apply elem_of_app in Hin as [Hin|Hin]; [exfalso|done].
        apply elem_of_app in Hin as [Hin|Hin].
        -- assert (kr.1 < kl.1); [|lia].
           apply StronglySorted_app_1_l in Hkeys.
           eapply (StronglySorted_app_1_elem_of _ _ _ _ _ Hkeys).
           ++ by apply list_elem_of_fmap_2.
           ++ set_solver.
        -- apply list_elem_of_singleton in Hin. subst. lia.
      * intros Hin.
        assert (Hin' : kr ∈ all) by (rewrite Hsplit; set_solver).
        apply elem_of_where_ordered in Hin' as [Hm _]. split; [done|].
        eapply (StronglySorted_app_1_elem_of _ _ _ _ _ Hkeys).
        -- set_solver.
        -- by apply list_elem_of_fmap_2.
Qed.

Lemma pending_since_take (c n : Z) (d : DB) :
  ¬ n < 0 → db_get_messages_since c n d = take (Z.to_nat n) (pending_since c d).
Proof.
  intros Hn. unfold pending_since, db_get_messages_since, sql_limit.
  rewrite decide_False by done. rewrite decide_True by lia.
  by rewrite fmap_take.
Qed.

Lemma elem_of_pending_since (c : Z) (d : DB) (msg : Message) :
  msg ∈ pending_since c d ↔
  ∃ r, messages d !! id msg = Some r ∧ c < id msg ∧ msg = select_columns (id msg, r).
Proof.
  unfold pending_since, db_get_messages_since, sql_limit.
  rewrite decide_True by lia. rewrite list_elem_of_fmap. split.
  - intros ([k r] & -> & Hkr). apply elem_of_where_ordered in Hkr as [Hm Hc].
    exists r. simpl in *. done.
  - intros (r & Hm & Hc & Hmsg). exists (id msg, r). split; [done|].
    by apply elem_of_where_ordered.
Qed.

Lemma pending_since_after (c : Z) (d : DB) (n : nat) (msg : Message) :
  last (take n (pending_since c d)) = Some msg →
  pending_since (id msg) d = drop n (pending_since c d).
Proof.
  unfold pending_since, db_get_messages_since, sql_limit.
  rewrite !decide_True by lia.
  rewrite <-fmap_take, fmap_last, <-fmap_drop.
  destruct (last (take n _)) as [kl|] eqn:Hlast; [|done].
  intros [= <-]. simpl. f_equal.
  by apply ordered_where_after.
Qed.

End Batches.

Lemma poll_handler_run (cursor : Z) (w : World) :
  poll_handler (ParamInt cursor) w
  = if int64 cursor
    then (MessagesOk (db_get_messages_since cursor 50 (db w)), w)
    else (ServerError, w).
Proof.
  unfold poll_handler, execute_query. cbn [int_param forallb].
  rewrite andb_true_r. by destruct (int64 cursor).
Qed.

Lemma poll_handler_world (since : IntParam) (w : World) :
  (poll_handler since w).2 = w.
Proof.
  unfold poll_handler, execute_query. destruct (int_param 0 since) as [c|]; [|done].
  cbn [forallb]. by destruct (int64 c).
Qed.

Lemma history_handler_run (limit : Z) (w : World) :
  history_handler (ParamInt limit) w
  = if int64 limit
    then (MessagesOk (db_get_recent limit (db w)), w)
    else (ServerError, w).
Proof.
  unfold history_handler, execute_query. cbn [int_param forallb].
  rewrite andb_true_r. by destruct (int64 limit).
Qed.

Lemma history_handler_world (limit : IntParam) (w : World) :
  (history_handler limit w).2 = w.
Proof.
  unfold history_handler, execute_query. destruct (int_param 20 limit) as [c|]; [|done].
  cbn [forallb]. by destruct (int64 c).
Qed.

(** C9. A poll with a cursor that is a 64-bit signed integer, as every id
    of the store is, returns the first 50 of the entries whose id is greater
    than the cursor, in ascending id order, so never more than 50; the
    handler passes no limit of its own.  When more than 50 are pending the
    batch has exactly 50 entries, each with a smaller id than every pending
    entry left out; the entries left out are exactly what is pending from
    the last id of the batch, and a poll from that id returns the first 50
    of them. *)
Theorem poll_batch_is_first_50 (w : World) (cursor : Z) :
  let batch := db_get_messages_since cursor 50 (db w) in
  let pending := pending_since cursor (db w) in
  int64 cursor = true →
  poll_handler (ParamInt cursor) w = (MessagesOk batch, w) ∧
  (∀ msg, msg ∈ pending ↔
     ∃ r, messages (db w) !! id msg = Some r ∧ cursor < id msg ∧
          msg = select_columns (id msg, r)) ∧
  batch = take 50 pending ∧
  (length batch ≤ 50)%nat ∧
  ((50 < length pending)%nat →
     length batch = 50%nat ∧
     (∀ msg msg', msg ∈ batch → msg' ∈ pending → msg' ∉ batch → id msg < id msg') ∧
     ∃ final, last batch = Some final ∧
              pending_since (id final) (db w) = drop 50 pending ∧
              (int64 (id final) = true →
                 poll_handler (ParamInt (id final)) w
                 = (MessagesOk (take 50 (drop 50 pending)), w))).
Proof.
  intros batch pending Hcursor.
  assert (Hbatch : batch = take 50 pending).
  { unfold batch, pending. by rewrite pending_since_take by lia. }
  split; [by rewrite poll_handler_run, Hcursor|].
  split; [apply elem_of_pending_since|].
  split; [done|]. split.
  { rewrite Hbatch, length_take. lia. }
  intros Hmore.
  assert (Hlen : length batch = 50%nat) by (rewrite Hbatch, length_take; lia).
  split; [done|].
  assert (Hsplit : pending = batch ++ drop 50 pending)
    by (by rewrite Hbatch, take_drop).
  split.
  - intros msg msg' Hin Hin' Hout.
    rewrite Hsplit in Hin'. apply elem_of_app in Hin' as [?|Hrest]; [done|].
    pose proof (read_since_ids_sorted (db w) cursor (-1)) as Hsorted.
    fold (pending_since cursor (db w)) in Hsorted. fold pending in Hsorted.
    rewrite Hsplit, fmap_app in Hsorted.
    eapply (StronglySorted_app_1_elem_of _ _ _ _ _ Hsorted);
      by apply list_elem_of_fmap_2.
  - destruct (last batch) as [final|] eqn:Hlast.
    + exists final. split; [done|].
      assert (Hrest : pending_since (id final) (db w) = drop 50 pending).
      { apply pending_since_after. fold pending. by rewrite <-Hbatch. }
      split; [done|]. intros Hfinal.
      rewrite poll_handler_run, Hfinal, <-Hrest.
      by rewrite pending_since_take by lia.
    + apply last_None in Hlast. rewrite Hlast in Hlen. done.
Qed.

Lemma poll_batch_is_first_50_witness :
  let w := mkWorld (mkDB (list_to_map ((λ k, (k, mkRow "t" "user" "x" None 0)) <$> seqZ 1 52)) 52)
                   [] 0 [] [] in
  int64 0 = true ∧
  (50 < length (pending_since 0 (db w)))%nat ∧
  poll_handler (ParamInt 0) w = (MessagesOk (db_get_messages_since 0 50 (db w)), w) ∧
  length (db_get_messages_since 0 50 (db w)) = 50%nat.
Proof.
  intros w.
  assert (Hmore : (50 < length (pending_since 0 (db w)))%nat) by (vm_compute; lia).
  split; [reflexivity|]. split; [exact Hmore|].
  destruct (poll_batch_is_first_50 w 0 eq_refl) as (Hpoll & _ & _ & _ & Hfull).
  split; [exact Hpoll|exact (proj1 (Hfull Hmore))].
Defined.

(** ** One turn through the pipeline *)

Section Turn.
Variable env : Env.

Lemma foldr_max_le (l : list Z) (b : Z) :
  0 ≤ b → Forall (λ k, k ≤ b) l → foldr Z.max 0 l ≤ b.
Proof. intros Hb. induction 1; simpl; lia. Qed.

Lemma max_rowid_le (m : gmap Z Row) (b : Z) :
  0 ≤ b → (∀ k r, m !! k = Some r → k ≤ b) → max_rowid m ≤ b.
Proof.
  intros Hb Hm. apply foldr_max_le; [done|].
  rewrite Forall_fmap, Forall_forall. intros [k r] Hkr. simpl.
  apply elem_of_map_to_list in Hkr. eauto.
Qed.

Lemma max_rowid_nonneg (m : gmap Z Row) : 0 ≤ max_rowid m.
Proof. unfold max_rowid. induction ((map_to_list m).*1); simpl; lia. Qed.

(** Ids are handed out consecutively. *)
Lemma next_rowid_after_insert now dir txt ap (d : DB) :
  next_rowid (db_insert_message now dir txt ap d).2 = next_rowid d + 1.
Proof.
  unfold next_rowid at 1. simpl.
  pose proof (max_rowid_nonneg (messages d)) as Hnn.
  assert (max_rowid (<[next_rowid d := mkRow now dir txt ap 0]> (messages d))
          ≤ next_rowid d); [|lia].
  apply max_rowid_le; [unfold next_rowid; lia|].
  intros k r. rewrite lookup_insert. case_decide; [lia|].
  intros Hk%max_rowid_ge. unfold next_rowid. lia.
Qed.

Lemma insert_message_run (dir txt : string) (ap : option string) (w : World) :
  insert_message env dir txt ap w =
  let d := (db_insert_message (now env (clock w)) dir txt ap (db w)).2 in
  (next_rowid (db w),
   mkWorld d (commits w ++ [d]) (S (clock w)) (relay_calls w) (tts_calls w)).
Proof. done. Qed.

Lemma call_main_session_run (txt : string) (msg_id : Z) (w : World) :
  call_main_session env txt msg_id w =
  (match urlopen env (length (relay_calls w)) txt msg_id with
   | HttpContent c => if Text.nonempty c then Some (ReplyText c) else None
   | HttpContentList => Some ReplyList
   | HttpTimeout | HttpError => None
   end,
   mkWorld (db w) (commits w) (clock w) (relay_calls w ++ [(txt, msg_id)]) (tts_calls w)).
Proof.
  unfold call_main_session.
  destruct (urlopen _ _ _ _) as [| |c|]; [done..| |done].
  by destruct (Text.nonempty c).
Qed.

Lemma call_main_session_failed (txt : string) (msg_id : Z) (w : World) :
  relay_failed (urlopen env (length (relay_calls w)) txt msg_id) = true →
  (call_main_session env txt msg_id w).1 = None.
Proof.
  rewrite call_main_session_run. simpl.
  destruct (urlopen _ _ _ _) as [| |c|]; simpl; [done..| |done].
  by destruct (Text.nonempty c).
Qed.

Lemma generate_tts_run (txt : string) (msg_id : Z) (w : World) :
  generate_tts env txt msg_id w =
  (if tts_failed (edge_tts env (length (tts_calls w)) txt msg_id)
   then None else Some (audio_url msg_id),
   mkWorld (db w) (commits w) (clock w) (relay_calls w) (tts_calls w ++ [(txt, msg_id)])).
Proof.
  unfold generate_tts.
  by destruct (edge_tts _ _ _ _) as [| |[]].
Qed.

Lemma process_voice_message_failed (txt : string) (msg_id : Z) (w : World) :
  relay_failed (urlopen env (length (relay_calls w)) txt msg_id) = true →
  process_voice_message env txt msg_id w =
  (Returns None, mkWorld (db w) (commits w) (clock w)
                         (relay_calls w ++ [(txt, msg_id)]) (tts_calls w)).
Proof.
  intros Hfail. unfold process_voice_message, mbind, M_bind.
  rewrite call_main_session_run.
  destruct (urlopen _ _ _ _) as [| |c|]; [done..| |done].
  simpl in Hfail. by destruct (Text.nonempty c).
Qed.

Lemma process_voice_message_list (txt : string) (msg_id : Z) (w : World) :
  urlopen env (length (relay_calls w)) txt msg_id = HttpContentList →
  process_voice_message env txt msg_id w =
  (Raises, mkWorld (db w) (commits w) (S (clock w))
                   (relay_calls w ++ [(txt, msg_id)]) (tts_calls w)).
Proof.
  intros Hl. unfold process_voice_message, mbind, M_bind.
  by rewrite call_main_session_run, Hl.
Qed.

Lemma process_voice_message_replied (txt c : string) (msg_id : Z) (w : World) :
  urlopen env (length (relay_calls w)) txt msg_id = HttpContent c →
  Text.nonempty c = true →
  process_voice_message env txt msg_id w =
  let response_id := next_rowid (db w) in
  let d := (db_insert_message (now env (clock w)) "jarvis" c None (db w)).2 in
  let w2 := mkWorld d (commits w ++ [d]) (S (clock w))
                    (relay_calls w ++ [(txt, msg_id)])
                    (tts_calls w ++ [(c, response_id)]) in
  (Returns (Some response_id),
   if tts_failed (edge_tts env (length (tts_calls w)) c response_id) then w2
   else let d' := db_update_audio_path (audio_url response_id) response_id d in
        mkWorld d' (commits w2 ++ [d']) (clock w2) (relay_calls w2) (tts_calls w2)).
Proof.
  intros Hc Hne. unfold process_voice_message, mbind, M_bind.
  rewrite call_main_session_run, Hc, Hne. rewrite Hne.
  rewrite insert_message_run. cbv beta iota zeta.
  rewrite generate_tts_run. simpl.
  destruct (tts_failed _); [done|].
  unfold attach_audio, audio_url. simpl. done.
Qed.

End Turn.

(** ** The submit handler *)

Section Submit.
Variable env : Env.
Variable s : string.
Variable w : World.

Local Abbreviation txt := (Text.strip Text.py_isspace s).
Local Abbreviation msg_id := (next_rowid (db w)).
Local Abbreviation user_row := (mkRow (now env (clock w)) "user" txt None 0).
Local Abbreviation d1 :=
  ((db_insert_message (now env (clock w)) "user" txt None (db w)).2).
Local Abbreviation w1 :=
  (mkWorld d1 (commits w ++ [d1]) (S (clock w)) (relay_calls w) (tts_calls w)).

Lemma speak_handler_run :
  Text.nonempty txt = true →
  speak_handler env (BodyJson (TextString s)) w =
  let (outcome, w') := process_voice_message env txt msg_id w1 in
  (match outcome with
   | Returns response_id => SpeakOk msg_id response_id
   | Raises => ServerError
   end, w').
Proof.
  intros Hne. unfold speak_handler. cbn [body_text]. rewrite Hne. cbn [negb].
  unfold mbind, M_bind. rewrite insert_message_run. cbv beta iota zeta.
  by destruct (process_voice_message env txt msg_id w1) as [[?|] ?].
Qed.

Lemma speak_handler_list :
  Text.nonempty txt = true →
  urlopen env (length (relay_calls w)) txt msg_id = HttpContentList →
  speak_handler env (BodyJson (TextString s)) w =
  (ServerError,
   mkWorld d1 (commits w ++ [d1]) (S (S (clock w)))
           (relay_calls w ++ [(txt, msg_id)]) (tts_calls w)).
Proof.
  intros Hne Hl. rewrite speak_handler_run by done.
  by rewrite process_voice_message_list.
Qed.

Lemma speak_handler_failed :
  Text.nonempty txt = true →
  relay_failed (urlopen env (length (relay_calls w)) txt msg_id) = true →
  speak_handler env (BodyJson (TextString s)) w =
  (SpeakOk msg_id None,
   mkWorld d1 (commits w ++ [d1]) (S (clock w))
           (relay_calls w ++ [(txt, msg_id)]) (tts_calls w)).
Proof.
  intros Hne Hfail. rewrite speak_handler_run by done.
  by rewrite process_voice_message_failed.
Qed.

Lemma speak_handler_replied (c : string) :
  Text.nonempty txt = true →
  urlopen env (length (relay_calls w)) txt msg_id = HttpContent c →
  Text.nonempty c = true →
  speak_handler env (BodyJson (TextString s)) w =
  let response_id := msg_id + 1 in
  let d2 := (db_insert_message (now env (S (clock w))) "jarvis" c None d1).2 in
  let w2 := mkWorld d2 (commits w ++ [d1; d2]) (S (S (clock w)))
                    (relay_calls w ++ [(txt, msg_id)])
                    (tts_calls w ++ [(c, response_id)]) in
  (SpeakOk msg_id (Some response_id),
   if tts_failed (edge_tts env (length (tts_calls w)) c response_id) then w2
   else let d3 := db_update_audio_path (audio_url response_id) response_id d2 in
        mkWorld d3 (commits w ++ [d1; d2; d3]) (clock w2) (relay_calls w2) (tts_calls w2)).
Proof.
  intros Hne Hc Hcne. rewrite speak_handler_run by done.
  rewrite (process_voice_message_replied env txt c msg_id w1) by done.
  assert (Hn : next_rowid d1 = msg_id + 1) by apply next_rowid_after_insert.
  cbv zeta. rewrite <-Hn. cbn [db commits clock relay_calls tts_calls].
  rewrite <-!(assoc_L (++)). done.
Qed.

Lemma speak_rows_after_reply (c : string) (d2 : DB) :
  d2 = (db_insert_message (now env (S (clock w))) "jarvis" c None d1).2 →
  messages d2 !! msg_id = Some user_row ∧
  messages d2 !! (msg_id + 1) = Some (mkRow (now env (S (clock w))) "jarvis" c None 0).
Proof.
  intros ->. set (d := d1).
  assert (Hn : next_rowid d = msg_id + 1) by apply next_rowid_after_insert.
  assert (Hu : messages d !! msg_id = Some user_row)
    by (unfold d; simpl; by rewrite lookup_insert_eq).
  simpl. rewrite Hn. split.
  - by rewrite lookup_insert_ne by lia.
  - by rewrite lookup_insert_eq.
Qed.

End Submit.

(** Text that is not blank is accepted: the user row is stored under the
    next id, and the answer carries that id unless the relay gave a list. *)
Lemma speak_handler_accepts (env : Env) (s : string) (w : World) :
  let txt := Text.strip Text.py_isspace s in
  let msg_id := next_rowid (db w) in
  let outcome := urlopen env (length (relay_calls w)) txt msg_id in
  Text.nonempty txt = true →
  ∃ answer w',
    speak_handler env (BodyJson (TextString s)) w = (answer, w') ∧
    messages (db w') !! msg_id = Some (mkRow (now env (clock w)) "user" txt None 0) ∧
    (answer = ServerError ↔ outcome = HttpContentList) ∧
    (outcome ≠ HttpContentList → ∃ response_id, answer = SpeakOk msg_id response_id).
Proof.
  intros txt msg_id outcome Hne. subst txt msg_id outcome.
  destruct (relay_failed (urlopen env (length (relay_calls w))
              (Text.strip Text.py_isspace s) (next_rowid (db w)))) eqn:Hfail.
  - eexists _, _. split; [by apply speak_handler_failed|].
    split; [simpl; by rewrite lookup_insert_eq|]. split; [|by eauto].
    split; [done|]. intros Hl. by rewrite Hl in Hfail.
  - destruct (urlopen env (length (relay_calls w))
                (Text.strip Text.py_isspace s) (next_rowid (db w)))
      as [| |c|] eqn:Hc; [done..| |].
    + simpl in Hfail. apply negb_false_iff in Hfail.
      eexists _, _. split; [by apply (speak_handler_replied env s w c)|].
      destruct (speak_rows_after_reply env s w c _ eq_refl) as [Huser Hreply].
      cbv zeta. split; [|split; [done|by eauto]].
      destruct (tts_failed _); cbn [db]; [done|].
      rewrite lookup_update_audio_path, decide_False by lia. done.
    + eexists _, _. split; [by apply speak_handler_list|].
      split; [simpl; by rewrite lookup_insert_eq|]. done.
Qed.




(** C3. When the relay call of a submitted turn times out, raises, or
    comes back with empty content, the turn adds no reply entry: the handler
    commits the user entry and nothing else, runs no synthesis, and reports
    no reply id.  The three kinds of failure are exactly the outcomes
    [relay_failed] accepts, and the resulting world is the same whichever of
    them occurred. *)
Theorem relay_failure_leaves_no_reply (env : Env) (s : string) (w : World) :
  let txt := Text.strip Text.py_isspace s in
  let msg_id := next_rowid (db w) in
  let d1 := (db_insert_message (now env (clock w)) "user" txt None (db w)).2 in
  Text.nonempty txt = true →
  relay_failed (urlopen env (length (relay_calls w)) txt msg_id) = true →
  speak_handler env (BodyJson (TextString s)) w =
    (SpeakOk msg_id None,
     mkWorld d1 (commits w ++ [d1]) (S (clock w))
             (relay_calls w ++ [(txt, msg_id)]) (tts_calls w)) ∧
  messages d1 = <[msg_id := mkRow (now env (clock w)) "user" txt None 0]> (messages (db w)) ∧
  (∀ k r, messages d1 !! k = Some r → direction r = "jarvis" →
          messages (db w) !! k = Some r) ∧
  (∀ o, relay_failed o = true ↔ o = HttpTimeout ∨ o = HttpError ∨ o = HttpContent EmptyString).
Proof.
  intros txt msg_id d1 Hne Hfail.
  split; [by apply speak_handler_failed|]. split; [done|]. split.
  - intros k r. simpl. rewrite lookup_insert. case_decide; [|done].
    intros [= <-]. done.
  - intros o. split.
    + destruct o as [| |[|? ?]|]; simpl; intros Ho; try discriminate Ho; auto.
    + by intros [-> | [-> | ->]].
Qed.

Lemma relay_failure_leaves_no_reply_witness :
  speak_handler (constant_env HttpTimeout (TtsExit true))
    (BodyJson (TextString "hello")) initial_world
  = (SpeakOk 1 None,
     let d1 := (db_insert_message "t0" "user" "hello" None (init_db None)).2 in
     mkWorld d1 [init_db None; d1] 1 [("hello", 1)] []).
Proof.
  apply (relay_failure_leaves_no_reply
           (constant_env HttpTimeout (TtsExit true)) "hello" initial_world);
    reflexivity.
Defined.

(** C5. When the relay answers with non-empty content and the synthesis
    then times out, raises, or leaves no file, the reply entry is in the
    store with the relay's text and no audio path; the handler answers with
    the reply id as for any successful turn; and synthesis was run exactly
    once. *)
Theorem synthesis_failure_keeps_text_reply
    (env : Env) (s c : string) (w : World) :
  let txt := Text.strip Text.py_isspace s in
  let msg_id := next_rowid (db w) in
  let d1 := (db_insert_message (now env (clock w)) "user" txt None (db w)).2 in
  let d2 := (db_insert_message (now env (S (clock w))) "jarvis" c None d1).2 in
  Text.nonempty txt = true →
  urlopen env (length (relay_calls w)) txt msg_id = HttpContent c →
  Text.nonempty c = true →
  tts_failed (edge_tts env (length (tts_calls w)) c (msg_id + 1)) = true →
  speak_handler env (BodyJson (TextString s)) w =
    (SpeakOk msg_id (Some (msg_id + 1)),
     mkWorld d2 (commits w ++ [d1; d2]) (S (S (clock w)))
             (relay_calls w ++ [(txt, msg_id)])
             (tts_calls w ++ [(c, msg_id + 1)])) ∧
  messages d2 !! (msg_id + 1)
    = Some (mkRow (now env (S (clock w))) "jarvis" c None 0) ∧
  (∀ o, tts_failed o = true ↔ o = TtsTimeout ∨ o = TtsError ∨ o = TtsExit false).
Proof.
  intros txt msg_id d1 d2 Hne Hc Hcne Htts.
  split; [|split].
  - rewrite (speak_handler_replied env s w c) by done.
    cbv zeta. fold txt msg_id. by rewrite Htts.
  - by destruct (speak_rows_after_reply env s w c d2 eq_refl) as [_ ?].
  - intros o. split.
    + destruct o as [| |[]]; simpl; intros Ho; try discriminate Ho; auto.
    + by intros [-> | [-> | ->]].
Qed.

Lemma synthesis_failure_keeps_text_reply_witness :
  speak_handler (constant_env (HttpContent "hi there") TtsTimeout)
    (BodyJson (TextString "hello")) initial_world
  = (SpeakOk 1 (Some 2),
     let d1 := (db_insert_message "t0" "user" "hello" None (init_db None)).2 in
     let d2 := (db_insert_message "t1" "jarvis" "hi there" None d1).2 in
     mkWorld d2 [init_db None; d1; d2] 2 [("hello", 1)] [("hi there", 2)]).
Proof.
  apply (synthesis_failure_keeps_text_reply
           (constant_env (HttpContent "hi there") TtsTimeout)
           "hello" "hi there" initial_world);
    reflexivity.
Defined.

(** ** Text before asset *)

Section TextThenAsset.
Variable env : Env.

Lemma good_history_commit (d d' : DB) (h : list DB) :
  good_history d h → store_ok d' → created_bare d d' →
  good_history d' (h ++ [d']).
Proof.
  intros (Hlast & Hok & Hadj) Hok' Hbare. split; [|split].
  - by rewrite last_snoc.
  - intros x [Hx|Hx]%elem_of_app; [by apply Hok|].
    apply list_elem_of_singleton in Hx. by subst.
  - intros i a b Ha Hb.
    assert (Hi : (S i < length (h ++ [d']))%nat) by (by eapply lookup_lt_Some).
    rewrite length_app in Hi. simpl in Hi.
    destruct (decide (S i < length h)%nat) as [Hlt|Hge].
    + rewrite lookup_app_l in Ha by lia. rewrite lookup_app_l in Hb by lia.
      by eapply Hadj.
    + assert (Hlen : length h = S i) by lia.
      rewrite lookup_app_l in Ha by lia.
      rewrite lookup_app_r in Hb by lia.
      rewrite Hlen, Nat.sub_diag in Hb. simpl in Hb. injection Hb as <-.
      rewrite last_lookup, Hlen in Hlast. simpl in Hlast.
      rewrite Hlast in Ha. injection Ha as <-. done.
Qed.

Lemma good_history_store_ok (d : DB) (h : list DB) :
  good_history d h → store_ok d.
Proof.
  intros (Hlast & Hok & _). apply Hok.
  rewrite last_lookup in Hlast. by eapply list_elem_of_lookup_2.
Qed.

Lemma insert_row_ok now dir txt (d : DB) :
  store_ok d → Text.nonempty txt = true → dir = "user" ∨ dir = "jarvis" →
  store_ok (db_insert_message now dir txt None d).2 ∧
  created_bare d (db_insert_message now dir txt None d).2.
Proof.
  intros Hok Hne Hdir. split.
  - intros k r. simpl. rewrite lookup_insert. case_decide.
    + intros [= <-]. split; [done|]. simpl. destruct Hdir; [by left|by right].
    + by apply Hok.
  - intros k r Hnone. simpl. rewrite lookup_insert. case_decide.
    + by intros [= <-].
    + by rewrite Hnone.
Qed.

Lemma update_audio_row_ok (p : string) (i : Z) (d : DB) :
  store_ok d →
  (∀ r, messages d !! i = Some r → direction r = "jarvis") →
  store_ok (db_update_audio_path p i d) ∧
  created_bare d (db_update_audio_path p i d).
Proof.
  intros Hok Hagent. split.
  - intros k r. rewrite lookup_update_audio_path. case_decide; [subst|by apply Hok].
    destruct (messages d !! k) as [r0|] eqn:Hr0; [|done].
    intros [= <-]. destruct (Hok _ _ Hr0) as [Hne _].
    split; [done|]. right. simpl. by apply Hagent.
  - intros k r Hnone. rewrite lookup_update_audio_path.
    case_decide; subst; by rewrite Hnone.
Qed.

Lemma mark_delivered_row_ok (i : Z) (d : DB) :
  store_ok d →
  store_ok (db_mark_delivered i d) ∧ created_bare d (db_mark_delivered i d).
Proof.
  intros Hok. split.
  - intros k r. simpl. rewrite lookup_alter. case_decide; [subst|by apply Hok].
    destruct (messages d !! k) as [r0|] eqn:Hr0; [|done].
    intros [= <-]. by apply (Hok _ _ Hr0).
  - intros k r Hnone. simpl. rewrite lookup_alter.
    case_decide; subst; by rewrite Hnone.
Qed.

(** A row is written, synthesis is tried, and the audio path is attached
    to that row when there is one: the tail shared by [respond_handler] and
    the success branch of [process_voice_message]. *)
Lemma reply_steps_good (now c : string) (d : DB) (h : list DB) :
  good_history d h → Text.nonempty c = true →
  let d2 := (db_insert_message now "jarvis" c None d).2 in
  let d3 := db_update_audio_path (audio_url (next_rowid d)) (next_rowid d) d2 in
  good_history d2 (h ++ [d2]) ∧ good_history d3 (h ++ [d2; d3]).
Proof.
  intros Hgood Hne d2 d3.
  destruct (insert_row_ok now "jarvis" c d) as [Hok2 Hbare2];
    [by eapply good_history_store_ok|done|by right|].
  assert (Hg2 : good_history d2 (h ++ [d2])) by (by apply (good_history_commit d)).
  split; [done|].
  destruct (update_audio_row_ok (audio_url (next_rowid d)) (next_rowid d) d2)
    as [Hok3 Hbare3]; [done| |].
  { intros r. unfold d2. simpl. rewrite lookup_insert_eq. by intros [= <-]. }
  replace (h ++ [d2; d3]) with ((h ++ [d2]) ++ [d3])
    by (by rewrite <-(assoc_L (++))).
  by apply (good_history_commit d2).
Qed.

Lemma respond_handler_run (s : string) (w : World) :
  let txt := Text.strip Text.py_isspace s in
  Text.nonempty txt = true →
  respond_handler env (BodyJson (TextString s)) w =
  let msg_id := next_rowid (db w) in
  let d2 := (db_insert_message (now env (clock w)) "jarvis" txt None (db w)).2 in
  let w2 := mkWorld d2 (commits w ++ [d2]) (S (clock w)) (relay_calls w)
                    (tts_calls w ++ [(txt, msg_id)]) in
  if tts_failed (edge_tts env (length (tts_calls w)) txt msg_id)
  then (RespondOk msg_id None, w2)
  else let d3 := db_update_audio_path (audio_url msg_id) msg_id d2 in
       (RespondOk msg_id (Some (audio_url msg_id)),
        mkWorld d3 (commits w ++ [d2; d3]) (clock w2) (relay_calls w2) (tts_calls w2)).
Proof.
  intros txt Hne. unfold respond_handler. simpl. fold txt. rewrite Hne. simpl.
  unfold mbind, M_bind. rewrite insert_message_run. cbv beta iota zeta.
  rewrite generate_tts_run. simpl.
  destruct (tts_failed _); [done|].
  simpl. rewrite <-(assoc_L (++)). done.
Qed.

Lemma body_text_cases (b : Body) :
  body_text b = None ∨
  (∃ s, b = BodyJson (TextString s)) ∨
  b = BodyJson TextMissing.
Proof. destruct b as [|[| s|]]; eauto. Qed.

Lemma speak_handler_good (b : Body) (w : World) :
  good_history (db w) (commits w) →
  good_history (db (speak_handler env b w).2) (commits (speak_handler env b w).2).
Proof.
  intros Hgood.
  destruct (body_text_cases b) as [Hb|[[s ->]| ->]].
  { unfold speak_handler. by rewrite Hb. }
  2:{ done. }
  destruct (Text.nonempty (Text.strip Text.py_isspace s)) eqn:Hne.
  2:{ unfold speak_handler. simpl. by rewrite Hne. }
  set (txt := Text.strip Text.py_isspace s) in *.
  set (d1 := (db_insert_message (now env (clock w)) "user" txt None (db w)).2).
  destruct (insert_row_ok (now env (clock w)) "user" txt (db w)) as [Hok1 Hbare1];
    [by eapply good_history_store_ok|done|by left|].
  assert (Hg1 : good_history d1 (commits w ++ [d1]))
    by (by apply (good_history_commit (db w))).
  destruct (relay_failed (urlopen env (length (relay_calls w)) txt (next_rowid (db w))))
    eqn:Hfail.
  { rewrite speak_handler_failed by done. done. }
  destruct (urlopen env (length (relay_calls w)) txt (next_rowid (db w)))
    as [| |c|] eqn:Hc; [done..| |].
  2:{ rewrite speak_handler_list by done. done. }
  simpl in Hfail. apply negb_false_iff in Hfail.
  rewrite (speak_handler_replied env s w c) by done.
  fold txt d1. cbv zeta.
  destruct (reply_steps_good (now env (S (clock w))) c d1 (commits w ++ [d1]) Hg1 Hfail)
    as [Hg2 Hg3].
  rewrite <-!(assoc_L (++)) in Hg2, Hg3.
  assert (Hn : next_rowid d1 = next_rowid (db w) + 1)
    by apply next_rowid_after_insert.
  rewrite <-Hn.
  destruct (tts_failed _); cbn [db commits snd]; done.
Qed.

Lemma respond_handler_good (b : Body) (w : World) :
  good_history (db w) (commits w) →
  good_history (db (respond_handler env b w).2) (commits (respond_handler env b w).2).
Proof.
  intros Hgood.
  destruct (body_text_cases b) as [Hb|[[s ->]| ->]].
  { unfold respond_handler. by rewrite Hb. }
  2:{ done. }
  destruct (Text.nonempty (Text.strip Text.py_isspace s)) eqn:Hne.
  2:{ unfold respond_handler. simpl. by rewrite Hne. }
  rewrite respond_handler_run by done. cbv zeta.
  destruct (reply_steps_good (now env (clock w)) _ (db w) (commits w) Hgood Hne)
    as [Hg2 Hg3].
  destruct (tts_failed _); cbn [db commits snd]; done.
Qed.

Lemma handle_good (r : Request) (w : World) :
  good_history (db w) (commits w) →
  good_history (db (handle env r w).2) (commits (handle env r w).2).
Proof.
  intros Hgood. destruct r as [b|b|since|limit|[i|]]; cbn [handle].
  - by apply speak_handler_good.
  - by apply respond_handler_good.
  - by rewrite poll_handler_world.
  - by rewrite history_handler_world.
  - rewrite delivered_handler_run. destruct (int64 i); [|done].
    destruct (mark_delivered_row_ok i (db w)) as [Hok Hbare];
      [by eapply good_history_store_ok|].
    by apply (good_history_commit (db w)).
  - done.
Qed.

Lemma reachable_good (w : World) :
  reachable env w → good_history (db w) (commits w).
Proof.
  induction 1 as [|w r _ IH]; [|by apply handle_good].
  split; [done|]. split.
  - intros d' Hd'%list_elem_of_singleton. subst. intros k r. simpl.
    by rewrite lookup_empty.
  - intros i d1 d2 Hi HSi. by destruct i.
Qed.

End TextThenAsset.

(** C8. From a fresh database, through any sequence of requests, every
    state the store was ever committed in has only rows with non-empty
    text; a row with an audio path is an agent row and a user row has none;
    and a row that appears in a commit appears without an audio path, so
    the path is attached in a later commit to a row that is already there
    with its text. *)
Theorem text_precedes_asset (env : Env) (w : World) :
  reachable env w →
  last (commits w) = Some (db w) ∧
  (∀ d k r, d ∈ commits w → messages d !! k = Some r →
     Text.nonempty (text r) = true ∧
     (direction r = "user" → audio_path r = None) ∧
     (is_Some (audio_path r) → direction r = "jarvis")) ∧
  (∀ i d d' k r, commits w !! i = Some d → commits w !! S i = Some d' →
     messages d !! k = None → messages d' !! k = Some r →
     audio_path r = None ∧ Text.nonempty (text r) = true).
Proof.
  intros (Hlast & Hok & Hadj)%reachable_good.
  split; [done|]. split.
  - intros d k r Hd Hr. destruct (Hok d Hd k r Hr) as [Hne Hdir].
    split; [done|]. split.
    + intros Hu. destruct Hdir as [[_ ?]|Hj]; [done|]. rewrite Hu in Hj. done.
    + intros [p Hp]. destruct Hdir as [[_ Hnone]|?]; [|done].
      rewrite Hp in Hnone. done.
  - intros i d d' k r Hi HSi Hnone Hr. split.
    + by apply (Hadj i d d' Hi HSi k r).
    + assert (Hd' : d' ∈ commits w) by (by eapply list_elem_of_lookup_2).
      by destruct (Hok d' Hd' k r Hr).
Qed.

Lemma text_precedes_asset_witness :
  let env := constant_env (HttpContent "hi there") (TtsExit true) in
  let w := (handle env (PostSpeak (BodyJson (TextString "hello"))) initial_world).2 in
  reachable env w ∧
  last (commits w) = Some (db w) ∧
  length (commits w) = 4%nat.
Proof.
  intros env w.
  assert (Hreach : reachable env w) by apply reachable_step, reachable_init.
  split; [exact Hreach|].
  split; [exact (proj1 (text_precedes_asset env w Hreach))|reflexivity].
Defined.

(** ** The cue word *)

Section Strings.
Import Text.
Local Arguments String.append !_ _ / : simpl nomatch.

Lemma append_nil_r (s : string) : s +:+ EmptyString = s.
Proof. induction s as [|c s IH]; simpl; [done|]. by rewrite IH. Qed.

Lemma append_assoc (a b c : string) : (a +:+ b) +:+ c = a +:+ (b +:+ c).
Proof. induction a as [|x a IH]; simpl; [done|]. by rewrite IH. Qed.

Lemma endsWith_spec (s t : string) :
  endsWith s t = true ↔ ∃ p, s = p +:+ t.
Proof.
  induction s as [|c s IH]; cbn [endsWith].
  - rewrite orb_false_r, String.eqb_eq. split.
    + intros <-. by exists EmptyString.
    + intros [p Hp]. destruct p; simpl in Hp; [done|discriminate].
  - rewrite orb_true_iff, String.eqb_eq, IH. split.
    + intros [<-|[p ->]]; [by exists EmptyString|by exists (String c p)].
    + intros [[|c' p] Hp]; simpl in Hp; [by left|].
      injection Hp as -> ->. right. by exists p.
Qed.

Lemma prefix_append (t r : string) : String.prefix t (t +:+ r) = true.
Proof.
  induction t as [|c t IH]; simpl; [by destruct r|].
  destruct (ascii_dec c c); [done|congruence].
Qed.

Lemma includes_prefix (s t : string) :
  String.prefix t s = true → includes s t = true.
Proof. intros H. destruct s; cbn [includes]; by rewrite H. Qed.

Lemma includes_append (p t r : string) : includes (p +:+ t +:+ r) t = true.
Proof.
  induction p as [|c p IH].
  - change (EmptyString +:+ t +:+ r) with (t +:+ r).
    apply includes_prefix, prefix_append.
  - change (String c p +:+ t +:+ r) with (String c (p +:+ t +:+ r)).
    cbn [includes]. rewrite IH. apply orb_true_r.
Qed.

Lemma endsWith_includes (s t : string) :
  endsWith s t = true → includes s t = true.
Proof.
  intros [p ->]%endsWith_spec.
  rewrite <-(append_nil_r t) at 1. apply includes_append.
Qed.

Lemma toLowerCase_append (a b : string) :
  toLowerCase (a +:+ b) = toLowerCase a +:+ toLowerCase b.
Proof. induction a as [|c a IH]; simpl; [done|]. by rewrite IH. Qed.

Lemma toLowerCase_split (s x y : string) :
  toLowerCase s = x +:+ y →
  ∃ p w, s = p +:+ w ∧ toLowerCase p = x ∧ toLowerCase w = y.
Proof.
  revert s. induction x as [|c x IH]; intros s Hs; simpl in Hs.
  - by exists EmptyString, s.
  - destruct s as [|c' s]; simpl in Hs; [discriminate|].
    injection Hs as Hc Hs. destruct (IH s Hs) as (p & w & -> & <- & <-).
    exists (String c' p), w. simpl. by rewrite Hc.
Qed.

(** The test made by [processAudio] amounts to: the text ends with the cue. *)
Lemma said_over_spec (text : string) :
  said_over text = true ↔ ∃ p w, text = p +:+ w ∧ is_cue w.
Proof.
  unfold said_over, is_cue. split.
  - intros [_ Hend]%andb_true_iff. apply orb_true_iff in Hend.
    destruct Hend as [[q Hq]%endsWith_spec|[q Hq]%endsWith_spec];
      apply toLowerCase_split in Hq as (p & w & -> & _ & Hw); eauto.
  - intros (p & w & -> & Hw). rewrite toLowerCase_append.
    assert (Hend : endsWith (toLowerCase p +:+ toLowerCase w) "over"
                   || endsWith (toLowerCase p +:+ toLowerCase w) "over." = true).
    { apply orb_true_iff. destruct Hw as [-> | ->]; [left|right];
        apply endsWith_spec; eauto. }
    rewrite Hend, andb_true_r.
    destruct Hw as [-> | ->].
    + apply endsWith_includes, endsWith_spec; eauto.
    + change "over." with ("over" +:+ "."). apply includes_append.
Qed.

(** Facts about single code units, checked on all 256 of them. *)
Local Ltac each_unit a :=
  destruct a as [[] [] [] [] [] [] [] []]; vm_compute; try done.

Lemma lower_unit_o a : lower_unit a = "o"%char → ci "o" a = true.
Proof. each_unit a. Qed.
Lemma lower_unit_v a : lower_unit a = "v"%char → ci "v" a = true.
Proof. each_unit a. Qed.
Lemma lower_unit_e a : lower_unit a = "e"%char → ci "e" a = true.
Proof. each_unit a. Qed.
Lemma lower_unit_r a :
  lower_unit a = "r"%char →
  ci "r" a = true ∧ js_isspace a = false ∧ is_dot a = false.
Proof. each_unit a. Qed.
Lemma lower_unit_dot a : lower_unit a = "."%char → a = "."%char.
Proof. each_unit a. Qed.
Lemma is_dot_eq a : is_dot a = true → a = "."%char.
Proof. unfold is_dot. by intros ?%Ascii.eqb_eq. Qed.

Lemma is_cue_shape (w : string) :
  is_cue w →
  ∃ a b c d tl,
    w = String a (String b (String c (String d tl))) ∧
    ci "o" a = true ∧ ci "v" b = true ∧ ci "e" c = true ∧ ci "r" d = true ∧
    js_isspace d = false ∧ is_dot d = false ∧ (tl = EmptyString ∨ tl = ".").
Proof.
  intros Hw.
  destruct w as [|a [|b [|c [|d tl]]]];
    try (destruct Hw as [Hw|Hw]; discriminate Hw).
  assert (Hl : lower_unit a = "o"%char ∧ lower_unit b = "v"%char ∧
               lower_unit c = "e"%char ∧ lower_unit d = "r"%char ∧
               (toLowerCase tl = EmptyString ∨ toLowerCase tl = ".")).
  { destruct Hw as [Hw|Hw]; simpl in Hw; injection Hw as ? ? ? ? ?; auto 10. }
  destruct Hl as (Ha & Hb & Hc & Hd & Htl).
  destruct (lower_unit_r d Hd) as (? & ? & ?).
  exists a, b, c, d, tl.
  repeat split; auto using lower_unit_o, lower_unit_v, lower_unit_e.
  destruct Htl as [Htl|Htl].
  - left. by destruct tl.
  - right. destruct tl as [|e [|? ?]]; try discriminate Htl.
    simpl in Htl. injection Htl as ->%lower_unit_dot. done.
Qed.

Lemma star_unfold (p : ascii → bool) (r : list Atom) (s : string) :
  matches_here (Star p :: r) s =
  match s with
  | String c s' => (p c && matches_here (Star p :: r) s') || matches_here r s
  | EmptyString => matches_here r s
  end.
Proof. by destruct s. Qed.

Lemma length_append (x y : string) :
  String.length (x +:+ y) = (String.length x + String.length y)%nat.
Proof. induction x as [|c x IH]; simpl; [done|]. by rewrite IH. Qed.

Lemma last_char_cons (c : ascii) (s : string) :
  s ≠ EmptyString → last_char (String c s) = last_char s.
Proof. by destruct s. Qed.

Lemma last_char_append (x y : string) :
  y ≠ EmptyString → last_char (x +:+ y) = last_char y.
Proof.
  intros Hy. induction x as [|c x IH]; simpl; [done|].
  rewrite <-IH. apply last_char_cons. by destruct x, y.
Qed.

(** [\s*$]: what is left is white space, so either nothing or something
    whose last unit is white space. *)
Lemma spaces_to_end (sp : ascii → bool) (y : string) :
  matches_here [Star sp; EndOfInput] y = true →
  y = EmptyString ∨ ∃ l, last_char y = Some l ∧ sp l = true.
Proof.
  induction y as [|c y IH]; [by left|].
  rewrite star_unfold. cbn [matches_here]. rewrite orb_false_r.
  intros [Hc Hy]%andb_true_iff. right.
  destruct (IH Hy) as [->|(l & Hl & Hsp)]; [by exists c|].
  exists l. split; [|done]. rewrite last_char_cons; [done|].
  intros ->. discriminate Hl.
Qed.

(** A match of [over\.?\s*$] is four units long, or five ending in a full
    stop, or ends in white space. *)
Lemma word_match_shape (s : string) :
  matches_here after_spaces s = true →
  String.length s = 4%nat ∨
  (String.length s = 5%nat ∧ last_char s = Some "."%char) ∨
  (∃ l, last_char s = Some l ∧ js_isspace l = true).
Proof.
  destruct s as [|a [|b [|c [|d tl]]]]; cbn [after_spaces matches_here eat];
    rewrite ?andb_false_r; try discriminate.
  intros Hm. repeat (apply andb_true_iff in Hm as [_ Hm]).
  assert (Hlast : tl ≠ EmptyString →
    last_char (String a (String b (String c (String d tl)))) = last_char tl).
  { intros Htl. rewrite !last_char_cons; [done|done..]. }
  apply orb_true_iff in Hm as [Hm|Hm].
  - destruct tl as [|e tl]; [discriminate|].
    apply andb_true_iff in Hm as [->%is_dot_eq Hm].
    destruct (spaces_to_end _ _ Hm) as [->|(l & Hl & Hsp)].
    + right. left. done.
    + right. right. exists l. split; [|done].
      rewrite Hlast by done. rewrite last_char_cons; [done|].
      intros ->. discriminate Hl.
  - destruct (spaces_to_end _ _ Hm) as [->|(l & Hl & Hsp)]; [by left|].
    right. right. exists l. split; [|done].
    rewrite Hlast; [done|]. intros ->. discriminate Hl.
Qed.

Lemma word_match_cue (w : string) :
  is_cue w → matches_here after_spaces w = true.
Proof.
  intros (a & b & c & d & tl & -> & Ha & Hb & Hc & Hd & _ & _ & Htl)%is_cue_shape.
  cbn [after_spaces matches_here eat]. rewrite Ha, Hb, Hc, Hd.
  by destruct Htl as [-> | ->].
Qed.

Lemma word_match_longer (c0 : ascii) (q w : string) :
  is_cue w → matches_here after_spaces (String c0 (q +:+ w)) = false.
Proof.
  intros (a & b & c & d & tl & -> & _ & _ & _ & _ & Hsp & Hdot & Htl)%is_cue_shape.
  set (w := String a (String b (String c (String d tl)))).
  destruct (matches_here after_spaces (String c0 (q +:+ w))) eqn:Hm; [|done].
  exfalso. apply word_match_shape in Hm.
  assert (Hlen : String.length (String c0 (q +:+ w))
                 = (5 + String.length q + String.length tl)%nat).
  { cbn [String.length]. rewrite length_append. unfold w. simpl. lia. }
  assert (Hlast : last_char (String c0 (q +:+ w)) = last_char w).
  { rewrite last_char_cons by (by destruct q).
    by apply last_char_append. }
  assert (Hw : last_char w = Some d ∧ tl = EmptyString ∨ last_char w = Some "."%char ∧ tl = ".").
  { destruct Htl as [-> | ->]; [by left|by right]. }
  rewrite Hlen, Hlast in Hm.
  destruct Hm as [Hm|[[Hm Hl]|(l & Hl & Hspl)]]; [lia| |].
  - destruct Hw as [[Hw ->]|[_ ->]]; [|simpl in Hm; lia].
    rewrite Hw in Hl. injection Hl as ->. discriminate Hdot.
  - destruct Hw as [[Hw _]|[Hw _]]; rewrite Hw in Hl; injection Hl as <-;
      [congruence|discriminate Hspl].
Qed.

(** The whole pattern matches at the head of [p ++ w] exactly when [p] is
    white space only. *)
Lemma over_re_matches (p w : string) :
  is_cue w → matches_here over_re (p +:+ w) = all_space js_isspace p.
Proof.
  intros Hw. unfold over_re.
  induction p as [|c p IH].
  - change (EmptyString +:+ w) with w. rewrite star_unfold.
    rewrite (word_match_cue w Hw). destruct w; [done|]. apply orb_true_r.
  - change (String c p +:+ w) with (String c (p +:+ w)).
    rewrite star_unfold, IH, word_match_longer by done.
    by rewrite orb_false_r.
Qed.

Lemma rstrip_all_space (sp : ascii → bool) (s : string) :
  rstrip sp s = EmptyString ↔ all_space sp s = true.
Proof.
  induction s as [|c s IH]; simpl; [done|].
  destruct (rstrip sp s) eqn:Hr.
  - destruct (sp c); simpl; [|done]. by rewrite <-IH.
  - split; [done|]. intros [_ Hs%IH]%andb_true_iff. done.
Qed.

Lemma rstrip_idemp (sp : ascii → bool) (s : string) :
  rstrip sp (rstrip sp s) = rstrip sp s.
Proof.
  induction s as [|c s IH]; simpl; [done|].
  destruct (rstrip sp s) as [|c' r] eqn:Hr.
  - destruct (sp c) eqn:Hc; simpl; [done|]. by rewrite Hc.
  - simpl in *. by rewrite IH.
Qed.

(** Cutting the match off [p ++ w] leaves [p] without its trailing white
    space. *)
Lemma replace_over (p w : string) :
  is_cue w → replace_to_end over_re (p +:+ w) = rstrip js_isspace p.
Proof.
  intros Hw. induction p as [|c p IH].
  - change (EmptyString +:+ w) with w.
    assert (Hm : matches_here over_re w = true) by exact (over_re_matches EmptyString w Hw).
    destruct w; cbn [replace_to_end]; by rewrite Hm.
  - pose proof (over_re_matches (String c p) w Hw) as Hm.
    change (String c p +:+ w) with (String c (p +:+ w)) in *.
    cbn [replace_to_end]. rewrite Hm.
    destruct (all_space js_isspace (String c p)) eqn:Hsp.
    + symmetry. by apply rstrip_all_space.
    + rewrite IH. simpl in *.
      destruct (rstrip js_isspace p) eqn:Hr; [|done].
      apply rstrip_all_space in Hr. rewrite Hr, andb_true_r in Hsp.
      by rewrite Hsp.
Qed.

Lemma clean_text (p w : string) :
  is_cue w → trim (replace_to_end over_re (p +:+ w)) = trim p.
Proof.
  intros Hw. rewrite replace_over by done.
  unfold trim, strip. by rewrite rstrip_idemp.
Qed.

End Strings.

(** C4, as the code has it.  In over mode, a transcribed segment (trimmed)
    triggers the flush exactly when it ends with the cue word in any case,
    followed by at most one full stop and nothing else.  On a trigger the
    cue, the full stop and the white space before them are cut off; what
    remains is appended if it is not empty; the buffer is joined with single
    spaces, trimmed, sent as one turn if not empty, and left empty.  Without
    a trigger the segment is appended and nothing is sent.  Segments
    ["hello"], ["how are"], ["you over"] fed after listening starts give the
    one utterance ["hello how are you"] and an empty buffer. *)
Theorem cue_word_flush (t : string) (st : State) :
  let segment := trim t in
  Text.nonempty t = true →
  String.eqb t "(silence)" = false →
  (said_over segment = true ↔ ∃ p w, segment = p +:+ w ∧ is_cue w) ∧
  (said_over segment = false → processAudio true (Some t) st = push segment st) ∧
  (∀ p w, segment = p +:+ w → is_cue w →
     let clean := trim p in
     let buffer := speechBuffer st ++ (if Text.nonempty clean then [clean] else []) in
     let fullText := trim (join buffer) in
     speechBuffer (processAudio true (Some t) st) = [] ∧
     sent (processAudio true (Some t) st) =
       sent st ++ (match buffer with
                   | [] => []
                   | _ => if Text.nonempty fullText then [fullText] else []
                   end)) ∧
  feed true ["hello"; "how are"; "you over"] (start_listening st)
    = mkState [] (sent st ++ ["hello how are you"]).
Proof.
  intros segment Hne Hsil.
  split; [apply said_over_spec|]. split; [|split; [|done]].
  - intros Hno. unfold processAudio. rewrite Hne, Hsil. simpl.
    fold segment. by rewrite Hno.
  - intros p w Hseg Hw clean buffer fullText.
    assert (Hsaid : said_over segment = true)
      by (apply said_over_spec; eauto).
    unfold processAudio. rewrite Hne, Hsil. cbn [andb negb]. fold segment.
    rewrite Hsaid, Hseg, clean_text by done.
    fold clean. unfold fullText, buffer. clear fullText buffer.
    destruct st as [buf out]. cbn [speechBuffer sent].
    destruct (Text.nonempty clean); unfold sendBufferedSpeech, push;
      cbn [speechBuffer sent].
    + destruct (buf ++ [clean]) eqn:Hb; [by destruct buf|].
      rewrite <-Hb.
      destruct (Text.nonempty (trim _)); unfold sendToServer;
        cbn [speechBuffer sent]; by rewrite ?app_nil_r.
    + rewrite app_nil_r. destruct buf; [by rewrite app_nil_r|].
      destruct (Text.nonempty (trim _)); unfold sendToServer;
        cbn [speechBuffer sent]; by rewrite ?app_nil_r.
Qed.

Lemma cue_word_flush_witness :
  let st := mkState ["hello"; "how are"] [] in
  speechBuffer (processAudio true (Some "you Over. ") st) = [] ∧
  sent (processAudio true (Some "you Over. ") st) = [] ++ ["hello how are you"].
Proof.
  intros st.
  destruct (cue_word_flush "you Over. " st) as (_ & _ & Hflush & _);
    [reflexivity|reflexivity|].
  apply (Hflush "you " "Over."); [reflexivity|].
  right. reflexivity.
Defined.

(** C4, as the specification words it, fails: a segment whose cue word is
    followed by punctuation other than one full stop is a trigger once its
    trailing punctuation is trimmed, yet the code appends it and sends
    nothing. *)
Lemma cue_with_other_punctuation_is_buffered :
  spec_flush_trigger "you over!" = true ∧
  processAudio true (Some "you over!") (mkState ["hello"] [])
    = mkState ["hello"; "you over!"] [] ∧
  spec_flush_trigger "you over..." = true ∧
  processAudio true (Some "you over...") (mkState ["hello"] [])
    = mkState ["hello"; "you over..."] [].
Proof. repeat split; vm_compute; reflexivity. Qed.

(** * Further properties of the store *)

Section StoreMore.

Lemma max_rowid_keys (m m' : gmap Z Row) :
  (∀ k, is_Some (m !! k) → is_Some (m' !! k)) → max_rowid m ≤ max_rowid m'.
Proof.
  intros Hsub. apply max_rowid_le; [apply max_rowid_nonneg|].
  intros k r Hk. destruct (Hsub k) as [r' Hr']; [by exists r|].
  by eapply max_rowid_ge.
Qed.

Lemma max_rowid_alter (f : Row → Row) (i : Z) (m : gmap Z Row) :
  max_rowid (alter f i m) = max_rowid m.
Proof.
  apply Z.le_antisymm; apply max_rowid_keys; intros k;
    rewrite lookup_alter; case_decide; subst; rewrite ?fmap_is_Some; done.
Qed.

Lemma next_rowid_apply_op (op : StoreOp) (d : DB) :
  next_rowid d ≤ next_rowid (apply_op op d).
Proof.
  destruct op as [now dir txt ap|p i|i]; simpl.
  - change (next_rowid d ≤ next_rowid (db_insert_message now dir txt ap d).2).
    rewrite next_rowid_after_insert. lia.
  - unfold next_rowid. simpl. rewrite max_rowid_alter. lia.
  - unfold next_rowid. simpl. rewrite max_rowid_alter. lia.
Qed.

Lemma apply_op_keeps_keys (op : StoreOp) (d : DB) (k : Z) :
  is_Some (messages d !! k) → is_Some (messages (apply_op op d) !! k).
Proof.
  intros [r Hr]. destruct op as [now dir txt ap|p i|i]; simpl.
  - exists r. by apply (insert_keeps_rows now dir txt ap).
  - rewrite lookup_alter. case_decide; subst; rewrite Hr; by eexists.
  - rewrite lookup_alter. case_decide; subst; rewrite Hr; by eexists.
Qed.

End StoreMore.

(** X1. An insert returns an id no row had, greater than every id in the
    table; the row read back under it has exactly the columns given and
    [delivered] 0; every other row is as before; and the next insert gets
    the following id. *)
Theorem insert_then_lookup (now dir txt : string) (ap : option string) (d : DB) :
  let i := (db_insert_message now dir txt ap d).1 in
  let d' := (db_insert_message now dir txt ap d).2 in
  messages d !! i = None ∧
  (∀ k, is_Some (messages d !! k) → k < i) ∧
  messages d' !! i = Some (mkRow now dir txt ap 0) ∧
  (∀ k, k ≠ i → messages d' !! k = messages d !! k) ∧
  (db_insert_message now dir txt ap d').1 = i + 1.
Proof.
  intros i d'. split; [apply next_rowid_fresh|]. split.
  { intros k [r Hr]. apply max_rowid_ge in Hr. unfold i. simpl.
    unfold next_rowid. lia. }
  split; [simpl; by rewrite lookup_insert_eq|]. split.
  - intros k Hk. simpl. by rewrite lookup_insert_ne.
  - apply next_rowid_after_insert.
Qed.

(** X2. Through any sequence of writes no row disappears and the id the
    next insert would get never goes down; so an id handed out after them
    is greater than every id the table held before them. *)
Theorem ids_never_reused (ops : list StoreOp) (d : DB) :
  let d' := foldl (λ d op, apply_op op d) d ops in
  (∀ k, is_Some (messages d !! k) → is_Some (messages d' !! k)) ∧
  next_rowid d ≤ next_rowid d' ∧
  (∀ k now dir txt ap, is_Some (messages d !! k) →
     k < (db_insert_message now dir txt ap d').1).
Proof.
  revert d. induction ops as [|op ops IH]; intros d; simpl.
  - split; [done|]. split; [done|].
    intros k _ _ _ _ [r Hr]. apply max_rowid_ge in Hr. unfold next_rowid. lia.
  - destruct (IH (apply_op op d)) as (Hkeys & Hnext & Hlater).
    split; [|split].
    + intros k Hk. apply Hkeys. by apply apply_op_keeps_keys.
    + pose proof (next_rowid_apply_op op d). lia.
    + intros k now dir txt ap Hk. apply (Hlater k now dir txt ap).
      by apply apply_op_keeps_keys.
Qed.

Lemma ids_never_reused_witness :
  let d := (db_insert_message "t0" "user" "a" None (init_db None)).2 in
  1 < (db_insert_message "t9" "user" "c" None
         (foldl (λ d op, apply_op op d) d
            [MarkDelivered 1; Insert "t1" "jarvis" "b" None; UpdateAudioPath "/audio/jarvis_2.mp3" 2])).1.
Proof.
  intros d.
  destruct (ids_never_reused
    [MarkDelivered 1; Insert "t1" "jarvis" "b" None; UpdateAudioPath "/audio/jarvis_2.mp3" 2] d)
    as (_ & _ & Hlater).
  apply Hlater. by eexists.
Defined.

Section FeedOrder.

Lemma StronglySorted_id_le_NoDup (l : list (Z * Row)) :
  NoDup l.*1 → NoDup l.
Proof. apply NoDup_fmap_1. Qed.

(** Two key-sorted lists of rows of one table with the same members are the
    same list. *)
Lemma ordered_rows_unique (m : gmap Z Row) (l1 l2 : list (Z * Row)) :
  StronglySorted id_le l1 → StronglySorted id_le l2 →
  NoDup l1 → NoDup l2 →
  (∀ kr, kr ∈ l1 → m !! kr.1 = Some kr.2) →
  (∀ kr, kr ∈ l1 ↔ kr ∈ l2) →
  l1 = l2.
Proof.
  intros Hs1 Hs2 Hn1 Hn2 Hm Heq.
  apply (StronglySorted_unique_strong id_le); [|done..|by apply NoDup_Permutation].
  intros [k1 r1] [k2 r2] H1 H2 H12 H21. unfold id_le in *. simpl in *.
  assert (k1 = k2) by lia. subst.
  apply Hm in H1. apply Heq, Hm in H2. simpl in *. congruence.
Qed.

Lemma ordered_where_sorted (c : Z) (m : gmap Z Row) :
  StronglySorted id_le (order_by_id_asc (where_id_gt c (map_to_list m))).
Proof. apply StronglySorted_merge_sort; apply _. Qed.

Lemma ordered_where_insert (c i : Z) (r : Row) (m : gmap Z Row) :
  (∀ k, is_Some (m !! k) → k < i) → c < i →
  order_by_id_asc (where_id_gt c (map_to_list (<[i := r]> m)))
  = order_by_id_asc (where_id_gt c (map_to_list m)) ++ [(i, r)].
Proof.
  intros Hfresh Hc.
  assert (Hnone : m !! i = None).
  { destruct (m !! i) eqn:Hi; [|done].
    assert (i < i) by (apply Hfresh; by eexists). lia. }
  apply (ordered_rows_unique (<[i := r]> m)).
  - apply ordered_where_sorted.
  - apply StronglySorted_app_2; [|apply ordered_where_sorted|repeat constructor].
    intros x1 x2 [Hx1 _]%elem_of_where_ordered ->%list_elem_of_singleton.
    unfold id_le. simpl. assert (x1.1 < i) by (apply Hfresh; by eexists). lia.
  - apply ordered_where_NoDup.
  - apply NoDup_app. split; [apply ordered_where_NoDup|]. split; [|apply NoDup_singleton].
    intros x [Hx _]%elem_of_where_ordered ->%list_elem_of_singleton.
    simpl in Hx. by rewrite Hnone in Hx.
  - by intros kr [? _]%elem_of_where_ordered.
  - intros [k r']. rewrite elem_of_app, !elem_of_where_ordered, list_elem_of_singleton.
    simpl. rewrite lookup_insert. case_decide; subst.
    + rewrite Hnone. split.
      * intros [[= ->] _]. by right.
      * intros [[Hx _]|Heq]; [done|]. by injection Heq as ->.
    + split; [by left|]. intros [?|Heq]; [done|]. by injection Heq as ? _.
Qed.

Lemma ordered_where_alter (f : Row → Row) (c i : Z) (m : gmap Z Row) :
  order_by_id_asc (where_id_gt c (map_to_list (alter f i m)))
  = (λ kr, if decide (kr.1 = i) then on_row f kr else kr)
      <$> order_by_id_asc (where_id_gt c (map_to_list m)).
Proof.
  set (g := λ kr : Z * Row, if decide (kr.1 = i) then on_row f kr else kr).
  assert (Hkey : ∀ kr, (g kr).1 = kr.1).
  { intros kr. unfold g. by case_decide. }
  assert (Hinj : ∀ l : list (Z * Row), (g <$> l).*1 = l.*1).
  { intros l. rewrite <-list_fmap_compose. apply list_fmap_ext. intros ? kr ?. apply Hkey. }
  assert (Hmem : ∀ kr, kr ∈ g <$> order_by_id_asc (where_id_gt c (map_to_list m))
                 ↔ alter f i m !! kr.1 = Some kr.2 ∧ c < kr.1).
  { intros [k r]. rewrite list_elem_of_fmap. simpl. rewrite lookup_alter. split.
    - intros ([k0 r0] & Hg & [Hm Hc]%elem_of_where_ordered). simpl in *.
      unfold g in Hg. simpl in Hg. case_decide; subst; injection Hg as -> ->.
      + rewrite decide_True by done. rewrite Hm. done.
      + rewrite decide_False by done. done.
    - intros [Hm Hc]. case_decide; subst.
      + destruct (m !! k) as [r0|] eqn:Hr0; [|done]. injection Hm as <-.
        exists (k, r0). split; [unfold g; simpl; by rewrite decide_True|].
        by apply elem_of_where_ordered.
      + exists (k, r). split; [unfold g; simpl; by rewrite decide_False|].
        by apply elem_of_where_ordered. }
  apply (ordered_rows_unique (alter f i m)).
  - apply ordered_where_sorted.
  - apply (StronglySorted_fmap g id_le id_le); [|apply ordered_where_sorted].
    intros x y. unfold id_le. by rewrite !Hkey.
  - apply ordered_where_NoDup.
  - apply NoDup_fmap_1 with (f := fst). rewrite Hinj.
    pose proof (order_by_id_asc_keys _ (NoDup_keys_where c m)) as Hs.
    unfold order_by_id_asc. rewrite merge_sort_Permutation.
    apply NoDup_keys_where.
  - by intros kr [? _]%elem_of_where_ordered.
  - intros kr. by rewrite Hmem, elem_of_where_ordered.
Qed.

End FeedOrder.

(** X3. A row just inserted shows up at the end of what is pending for
    every cursor below its id, after everything that was pending before; a
    read with a limit is the corresponding prefix, and so is the answer to
    a poll.  Cursor and limit are 64-bit integers: for any other the read
    raises. *)
Theorem insert_appends_to_feed
    (now dir txt : string) (ap : option string) (cursor : Z) (d : DB) :
  let i := (db_insert_message now dir txt ap d).1 in
  let d' := (db_insert_message now dir txt ap d).2 in
  int64 cursor = true →
  cursor < i →
  pending_since cursor d' = pending_since cursor d ++ [mkMessage i now dir txt ap] ∧
  (∀ limit, int64 limit = true → 0 ≤ limit →
     db_get_messages_since cursor limit d'
     = take (Z.to_nat limit) (pending_since cursor d ++ [mkMessage i now dir txt ap])) ∧
  (∀ w, db w = d' →
     poll_handler (ParamInt cursor) w
     = (MessagesOk (take 50 (pending_since cursor d ++ [mkMessage i now dir txt ap])), w)).
Proof.
  intros i d' Hcursor Hc.
  assert (Hp : pending_since cursor d'
               = pending_since cursor d ++ [mkMessage i now dir txt ap]).
  { unfold pending_since, db_get_messages_since, sql_limit.
    rewrite !decide_True by lia. simpl.
    rewrite (ordered_where_insert cursor (next_rowid d)); [|  |done].
    - by rewrite fmap_app.
    - intros k [r Hr]. apply max_rowid_ge in Hr. unfold next_rowid. lia. }
  split; [done|]. split.
  - intros limit _ Hl. rewrite pending_since_take by lia. by rewrite Hp.
  - intros w Hw. rewrite poll_handler_run, Hcursor, Hw.
    rewrite pending_since_take by lia. by rewrite Hp.
Qed.

Lemma insert_appends_to_feed_witness :
  let d := (db_insert_message "t0" "user" "a" None (init_db None)).2 in
  int64 0 = true ∧
  pending_since 0 (db_insert_message "t1" "jarvis" "b" None d).2
  = pending_since 0 d ++ [mkMessage 2 "t1" "jarvis" "b" None].
Proof.
  intros d. split; [reflexivity|].
  apply (insert_appends_to_feed "t1" "jarvis" "b" None 0 d); reflexivity.
Defined.

(** X4. Attaching an audio path to an id the table does not hold changes
    nothing; otherwise it changes that row's audio path and no other
    column or row, and every later poll returns the same entries in the
    same order with that entry now carrying the path. *)
Theorem attach_audio_path_shows_in_reads (p : string) (i cursor limit : Z) (d : DB) :
  let d' := db_update_audio_path p i d in
  (messages d !! i = None → d' = d) ∧
  (∀ k, k ≠ i → messages d' !! k = messages d !! k) ∧
  messages d' !! i = (λ r, set_audio_path r p) <$> messages d !! i ∧
  db_get_messages_since cursor limit d'
  = (λ m, if decide (id m = i)
          then mkMessage (id m) (msg_timestamp m) (msg_direction m) (msg_text m) (Some p)
          else m) <$> db_get_messages_since cursor limit d.
Proof.
  intros d'. subst d'. split; [|split; [|split]].
  - intros Hi. apply DB_eq; [|done]. simpl. apply map_eq. intros k.
    rewrite lookup_alter. case_decide; [subst|done]. by rewrite Hi.
  - intros k Hk. rewrite lookup_update_audio_path. by rewrite decide_False.
  - rewrite lookup_update_audio_path. by rewrite decide_True.
  - unfold db_get_messages_since. simpl.
    rewrite ordered_where_alter, sql_limit_fmap.
    rewrite <-!list_fmap_compose. apply list_fmap_ext.
    intros ? [k r] _. simpl. by case_decide.
Qed.

Lemma attach_audio_path_shows_in_reads_witness :
  db_update_audio_path "/audio/jarvis_5.mp3" 5 (init_db None) = init_db None.
Proof.
  destruct (attach_audio_path_shows_in_reads "/audio/jarvis_5.mp3" 5 0 50 (init_db None))
    as [Hunknown _].
  apply Hunknown. reflexivity.
Defined.

Section History.

Lemma strictly_descending (l : list Z) :
  StronglySorted (flip Z.le) l → NoDup l → StronglySorted (flip Z.lt) l.
Proof.
  induction 1 as [|x l Hs IH Hall]; intros Hnd; [constructor|].
  apply NoDup_cons in Hnd as [Hx Hnd].
  constructor; [by apply IH|].
  rewrite Forall_forall in Hall |- *. intros y Hy.
  specialize (Hall y Hy). unfold flip in *.
  assert (x ≠ y) by (intros ->; done). lia.
Qed.

Lemma order_by_id_desc_keys (m : gmap Z Row) :
  StronglySorted (flip Z.lt) (order_by_id_desc (map_to_list m)).*1.
Proof.
  apply strictly_descending.
  - apply (StronglySorted_fmap fst id_ge (flip Z.le)); [done|].
    apply StronglySorted_merge_sort; apply _.
  - unfold order_by_id_desc. rewrite merge_sort_Permutation.
    apply NoDup_fst_map_to_list.
Qed.

Lemma elem_of_order_by_id_desc (m : gmap Z Row) (kr : Z * Row) :
  kr ∈ order_by_id_desc (map_to_list m) ↔ m !! kr.1 = Some kr.2.
Proof.
  unfold order_by_id_desc. rewrite merge_sort_Permutation.
  destruct kr as [k r]. apply elem_of_map_to_list.
Qed.

Lemma reverse_descending (l : list Z) :
  StronglySorted (flip Z.lt) l → StronglySorted Z.lt (reverse l).
Proof.
  intros Hs. apply Sorted_StronglySorted; [apply _|].
  apply StronglySorted_Sorted in Hs.
  apply (Sorted_reverse (flip Z.lt)) in Hs. done.
Qed.

End History.

Lemma db_get_recent_facts (limit : Z) (d : DB) :
  let recent := db_get_recent limit d in
  StronglySorted Z.lt (id <$> recent) ∧
  (∀ m, m ∈ recent → ∃ r, messages d !! id m = Some r ∧ m = select_columns (id m, r)) ∧
  length recent = (if decide (limit < 0) then size (messages d)
                   else Nat.min (Z.to_nat limit) (size (messages d))) ∧
  (∀ m k r, m ∈ recent → messages d !! k = Some r →
            select_columns (k, r) ∉ recent → k < id m).
Proof.
  intros recent. unfold recent, db_get_recent.
  set (all := order_by_id_desc (map_to_list (messages d))).
  destruct (sql_limit_prefix limit all) as [rest Hall].
  pose proof (order_by_id_desc_keys (messages d)) as Hkeys. fold all in Hkeys.
  rewrite Hall, fmap_app in Hkeys.
  split; [|split; [|split]].
  - rewrite fmap_reverse, select_columns_id. apply reverse_descending.
    by apply StronglySorted_app_1_l in Hkeys.
  - intros m. rewrite elem_of_reverse, list_elem_of_fmap.
    intros ([k r] & -> & Hkr%elem_of_sql_limit).
    apply elem_of_order_by_id_desc in Hkr. by exists r.
  - rewrite length_reverse, length_fmap.
    assert (Hlen : length all = size (messages d)).
    { unfold all, order_by_id_desc. rewrite merge_sort_Permutation.
      apply length_map_to_list. }
    unfold sql_limit. case_decide; [done|]. rewrite length_take. lia.
  - intros m k r. rewrite !elem_of_reverse, !list_elem_of_fmap.
    intros ([k' r'] & -> & Hin) Hk Hout. simpl.
    assert (Hkr : (k, r) ∈ all) by (by apply elem_of_order_by_id_desc).
    rewrite Hall in Hkr. apply elem_of_app in Hkr as [Hkr|Hkr].
    { exfalso. apply Hout. by exists (k, r). }
    apply (StronglySorted_app_1_elem_of _ _ _ k' k) in Hkeys; [done| |].
    + by apply (list_elem_of_fmap_2 fst _ (k', r')).
    + by apply (list_elem_of_fmap_2 fst _ (k, r)).
Qed.

(** X5. The history endpoint, given a limit that is a 64-bit integer,
    returns entries of the table in strictly ascending id order; they are
    the [limit] rows with the greatest ids (all rows when there are fewer,
    or when [limit] is negative, which SQLite takes as no limit): every row
    left out has a smaller id than every row returned.  Any other limit is
    answered with status 500.  The store is left as it was either way. *)
Theorem history_is_most_recent (limit : Z) (w : World) :
  let recent := db_get_recent limit (db w) in
  history_handler (ParamInt limit) w
    = (if int64 limit then (MessagesOk recent, w) else (ServerError, w)) ∧
  (int64 limit = true →
     StronglySorted Z.lt (id <$> recent) ∧
     (∀ m, m ∈ recent →
        ∃ r, messages (db w) !! id m = Some r ∧ m = select_columns (id m, r)) ∧
     length recent = (if decide (limit < 0) then size (messages (db w))
                      else Nat.min (Z.to_nat limit) (size (messages (db w)))) ∧
     (∀ m k r, m ∈ recent → messages (db w) !! k = Some r →
               select_columns (k, r) ∉ recent → k < id m)).
Proof.
  intros recent. split; [apply history_handler_run|].
  intros _. apply db_get_recent_facts.
Qed.

Lemma history_is_most_recent_witness :
  let d := (db_insert_message "t1" "jarvis" "b" None
              (db_insert_message "t0" "user" "a" None (init_db None)).2).2 in
  let w := mkWorld d [] 0 [] [] in
  history_handler (ParamInt 1) w = (MessagesOk [mkMessage 2 "t1" "jarvis" "b" None], w) ∧
  history_handler (ParamInt (2 ^ 63)) w = (ServerError, w) ∧
  StronglySorted Z.lt (id <$> db_get_recent 1 d).
Proof.
  intros d w.
  split; [exact (proj1 (history_is_most_recent 1 w))|].
  split; [exact (proj1 (history_is_most_recent (2 ^ 63) w))|].
  exact (proj1 (proj2 (history_is_most_recent 1 w) eq_refl)).
Defined.

(** * Further properties of the handlers *)

Section Effects.
Variable env : Env.

(** What one request does, as the writes it makes and the calls it adds to
    the two traces. *)
Local Ltac quiet :=
  exists [], [], []; rewrite ?app_nil_r;
  do 3 (split; [done|]); by left.

Lemma handle_cases (r : Request) (w : World) :
  let w' := (handle env r w).2 in
  let i := next_rowid (db w) in
  ∃ ops relay tts,
    db w' = writes ops (db w) ∧
    relay_calls w' = relay_calls w ++ relay ∧
    tts_calls w' = tts_calls w ++ tts ∧
    ((ops = [] ∧ relay = [] ∧ tts = []) ∨
     (∃ k, r = PostDelivered (Some k) ∧ ops = [MarkDelivered k] ∧ relay = [] ∧ tts = []) ∨
     (∃ txt c now1 now2,
        Text.nonempty txt = true ∧ relay = [(txt, i)] ∧
        (ops = [Insert now1 "user" txt None] ∧ tts = [] ∨
         Text.nonempty c = true ∧ tts = [(c, i + 1)] ∧
         (ops = [Insert now1 "user" txt None; Insert now2 "jarvis" c None] ∨
          ops = [Insert now1 "user" txt None; Insert now2 "jarvis" c None;
                 UpdateAudioPath (audio_url (i + 1)) (i + 1)]))) ∨
     (∃ txt now1,
        Text.nonempty txt = true ∧ relay = [] ∧ tts = [(txt, i)] ∧
        (ops = [Insert now1 "jarvis" txt None] ∨
         ops = [Insert now1 "jarvis" txt None; UpdateAudioPath (audio_url i) i]))).
Proof.
  intros w' i. subst w' i.
  destruct r as [b|b|since|limit|[k|]]; cbn [handle].
  - destruct (body_text_cases b) as [Hb|[[s ->]| ->]].
    { unfold speak_handler. rewrite Hb. quiet. }
    2:{ quiet. }
    destruct (Text.nonempty (Text.strip Text.py_isspace s)) eqn:Hne.
    2:{ unfold speak_handler. simpl. rewrite Hne. quiet. }
    set (txt := Text.strip Text.py_isspace s) in *.
    destruct (relay_failed (urlopen env (length (relay_calls w)) txt (next_rowid (db w))))
      eqn:Hfail.
    { rewrite speak_handler_failed by done. fold txt.
      eexists [Insert _ "user" txt None], [(txt, _)], []. simpl.
      rewrite app_nil_r. repeat (split; [done|]).
      right. right. left. exists txt, EmptyString, (now env (clock w)), EmptyString.
      split; [done|]. split; [done|]. by left. }
    destruct (urlopen env (length (relay_calls w)) txt (next_rowid (db w)))
      as [| |c|] eqn:Hc; [done..| |].
    2:{ rewrite speak_handler_list by done. fold txt.
        eexists [Insert _ "user" txt None], [(txt, _)], []. simpl.
        rewrite app_nil_r. repeat (split; [done|]).
        right. right. left. exists txt, EmptyString, (now env (clock w)), EmptyString.
        split; [done|]. split; [done|]. by left. }
    simpl in Hfail. apply negb_false_iff in Hfail.
    rewrite (speak_handler_replied env s w c) by done. fold txt. cbv zeta.
    destruct (tts_failed _).
    + eexists [Insert _ "user" txt None; Insert _ "jarvis" c None], [(txt, _)], [(c, _)].
      simpl. repeat (split; [done|]).
      right. right. left. exists txt, c, (now env (clock w)), (now env (S (clock w))).
      split; [done|]. split; [done|]. right. split; [done|]. split; [done|]. by left.
    + eexists [Insert _ "user" txt None; Insert _ "jarvis" c None;
               UpdateAudioPath _ _], [(txt, _)], [(c, _)].
      simpl. repeat (split; [done|]).
      right. right. left. exists txt, c, (now env (clock w)), (now env (S (clock w))).
      split; [done|]. split; [done|]. right. split; [done|]. split; [done|]. by right.
  - destruct (body_text_cases b) as [Hb|[[s ->]| ->]].
    { unfold respond_handler. rewrite Hb. quiet. }
    2:{ quiet. }
    destruct (Text.nonempty (Text.strip Text.py_isspace s)) eqn:Hne.
    2:{ unfold respond_handler. simpl. rewrite Hne. quiet. }
    rewrite respond_handler_run by done. cbv zeta.
    set (txt := Text.strip Text.py_isspace s) in *.
    destruct (tts_failed _).
    + eexists [Insert _ "jarvis" txt None], [], [(txt, _)].
      simpl. rewrite app_nil_r. repeat (split; [done|]).
      right. right. right. exists txt, (now env (clock w)).
      split; [done|]. split; [done|]. split; [done|]. by left.
    + eexists [Insert _ "jarvis" txt None; UpdateAudioPath _ _], [], [(txt, _)].
      simpl. rewrite app_nil_r. repeat (split; [done|]).
      right. right. right. exists txt, (now env (clock w)).
      split; [done|]. split; [done|]. split; [done|]. by right.
  - rewrite poll_handler_world. quiet.
  - rewrite history_handler_world. quiet.
  - rewrite delivered_handler_run. destruct (int64 k); [|quiet].
    exists [MarkDelivered k], [], []. simpl. rewrite !app_nil_r.
    repeat (split; [done|]). right. left. by exists k.
  - quiet.
Qed.

End Effects.

Section Tables.
Variable env : Env.

Lemma insert_table now dir txt ap (d : DB) :
  messages (db_insert_message now dir txt ap d).2
    = <[next_rowid d := mkRow now dir txt ap 0]> (messages d) ∧
  sqlite_sequence (db_insert_message now dir txt ap d).2 = next_rowid d.
Proof. done. Qed.

Lemma attach_after_insert now dir txt p (d : DB) :
  messages (db_update_audio_path p (next_rowid d)
              (db_insert_message now dir txt None d).2)
  = <[next_rowid d := mkRow now dir txt (Some p) 0]> (messages d).
Proof.
  simpl. apply map_eq. intros k. rewrite lookup_alter, !lookup_insert.
  case_decide; [subst|done]. by rewrite decide_True.
Qed.

(** The table after one request, case by case. *)
Lemma handle_tables (r : Request) (w : World) :
  let w' := (handle env r w).2 in
  let m := messages (db w) in
  let i := next_rowid (db w) in
  ∃ relay tts,
    relay_calls w' = relay_calls w ++ relay ∧
    tts_calls w' = tts_calls w ++ tts ∧
    ((messages (db w') = m ∧ sqlite_sequence (db w') = sqlite_sequence (db w) ∧
      relay = [] ∧ tts = []) ∨
     (∃ k, r = PostDelivered (Some k) ∧
           messages (db w') = alter set_delivered k m ∧
           sqlite_sequence (db w') = sqlite_sequence (db w) ∧
           relay = [] ∧ tts = []) ∨
     (∃ txt now1, Text.nonempty txt = true ∧ relay = [(txt, i)] ∧ tts = [] ∧
           messages (db w') = <[i := mkRow now1 "user" txt None 0]> m ∧
           sqlite_sequence (db w') = i) ∨
     (∃ txt c now1 now2 ap,
           Text.nonempty txt = true ∧ Text.nonempty c = true ∧
           relay = [(txt, i)] ∧ tts = [(c, i + 1)] ∧
           (ap = None ∨ ap = Some (audio_url (i + 1))) ∧
           messages (db w') = <[i + 1 := mkRow now2 "jarvis" c ap 0]>
                                (<[i := mkRow now1 "user" txt None 0]> m) ∧
           sqlite_sequence (db w') = i + 1) ∨
     (∃ txt now1 ap,
           Text.nonempty txt = true ∧ relay = [] ∧ tts = [(txt, i)] ∧
           (ap = None ∨ ap = Some (audio_url i)) ∧
           messages (db w') = <[i := mkRow now1 "jarvis" txt ap 0]> m ∧
           sqlite_sequence (db w') = i)).
Proof.
  intros w' m i. subst w' m i.
  destruct (handle_cases env r w) as (ops & relay & tts & Hdb & Hrelay & Htts & Hcase).
  exists relay, tts. split; [done|]. split; [done|]. rewrite Hdb.
  destruct Hcase as [(-> & -> & ->)|[(k & -> & -> & -> & ->)|[Hturn|Hrespond]]].
  - by left.
  - right. left. by exists k.
  - destruct Hturn as (txt & c & now1 & now2 & Hne & -> & Hturn).
    set (d1 := (db_insert_message now1 "user" txt None (db w)).2).
    assert (Hn : next_rowid d1 = next_rowid (db w) + 1)
      by apply next_rowid_after_insert.
    destruct Hturn as [[-> ->]|(Hc & -> & [-> | ->])].
    + right. right. left. by exists txt, now1.
    + right. right. right. left. exists txt, c, now1, now2, None.
      do 4 (split; [done|]). split; [by left|].
      unfold writes. cbn [foldl apply_op]. fold d1.
      destruct (insert_table now2 "jarvis" c None d1) as [-> ->].
      by rewrite Hn.
    + right. right. right. left.
      exists txt, c, now1, now2, (Some (audio_url (next_rowid (db w) + 1))).
      do 4 (split; [done|]). split; [by right|].
      unfold writes. cbn [foldl apply_op]. fold d1. rewrite <-Hn.
      by rewrite attach_after_insert.
  - destruct Hrespond as (txt & now1 & Hne & -> & -> & [-> | ->]).
    + right. right. right. right. exists txt, now1, None.
      do 3 (split; [done|]). split; [by left|]. done.
    + right. right. right. right.
      exists txt, now1, (Some (audio_url (next_rowid (db w)))).
      do 3 (split; [done|]). split; [by right|].
      unfold writes. cbn [foldl apply_op]. by rewrite attach_after_insert.
Qed.

End Tables.

Section Stripping.
Import Text.

Lemma lstrip_all_space (sp : ascii → bool) (s : string) :
  lstrip sp s = EmptyString ↔ all_space sp s = true.
Proof.
  induction s as [|c s IH]; simpl; [done|].
  destruct (sp c); simpl; [done|]. split; discriminate.
Qed.

Lemma rstrip_keeps_non_space (sp : ascii → bool) (s : string) :
  rstrip sp s ≠ EmptyString → all_space sp (rstrip sp s) = false.
Proof.
  induction s as [|c s IH]; simpl; [done|].
  destruct (rstrip sp s) as [|c' r] eqn:Hr.
  - destruct (sp c) eqn:Hc; [done|]. intros _. simpl. by rewrite Hc.
  - intros _. change (sp c && all_space sp (String c' r) = false).
    rewrite IH by done. apply andb_false_r.
Qed.

Lemma strip_all_space (sp : ascii → bool) (s : string) :
  nonempty (strip sp s) = false ↔ all_space sp s = true.
Proof.
  unfold strip. split.
  - intros Hs.
    assert (Hl : lstrip sp (rstrip sp s) = EmptyString)
      by (by destruct (lstrip sp (rstrip sp s))).
    apply lstrip_all_space in Hl.
    destruct (rstrip sp s) as [|c r] eqn:Hr; [by apply rstrip_all_space|].
    rewrite <-Hr, rstrip_keeps_non_space in Hl; [done|]. by rewrite Hr.
  - intros Hs%rstrip_all_space. by rewrite Hs.
Qed.

Lemma strip_solid (sp : ascii → bool) (s : string) :
  all_space sp s = false → nonempty (strip sp s) = true.
Proof.
  intros Hs. destruct (nonempty (strip sp s)) eqn:Hn; [done|].
  apply strip_all_space in Hn. congruence.
Qed.

End Stripping.



(** X7. [respond_handler], given text that is not white space only, stores
    one agent row with the stripped text under the next id, runs synthesis
    once for it and never calls the relay; the audio path in the answer is
    the one stored with the row: the file name built from the row's id when
    synthesis succeeded, none otherwise.  No other row changes.  Blank text
    is answered 400 with the world untouched. *)
Theorem respond_stores_reply (env : Env) (s : string) (w : World) :
  let txt := Text.strip Text.py_isspace s in
  let i := next_rowid (db w) in
  let ap := if tts_failed (edge_tts env (length (tts_calls w)) txt i)
            then None else Some (audio_url i) in
  (Text.all_space Text.py_isspace s = true →
     respond_handler env (BodyJson (TextString s)) w
     = (BadRequest "No text provided", w)) ∧
  (Text.all_space Text.py_isspace s = false →
     ∃ w', respond_handler env (BodyJson (TextString s)) w = (RespondOk i ap, w') ∧
           messages (db w') = <[i := mkRow (now env (clock w)) "jarvis" txt ap 0]>
                                (messages (db w)) ∧
           messages (db w) !! i = None ∧
           relay_calls w' = relay_calls w ∧
           tts_calls w' = tts_calls w ++ [(txt, i)]).
Proof.
  intros txt i ap. subst txt i ap. split.
  - intros Hs%strip_all_space. unfold respond_handler. simpl. by rewrite Hs.
  - intros Hs%strip_solid. rewrite respond_handler_run by done. cbv zeta.
    destruct (tts_failed _); eexists; (split; [done|]); cbn [db relay_calls tts_calls].
    + split; [done|]. split; [apply next_rowid_fresh|done].
    + split; [apply attach_after_insert|]. split; [apply next_rowid_fresh|done].
Qed.

Lemma respond_stores_reply_witness :
  ∃ w', respond_handler (constant_env HttpError (TtsExit true))
          (BodyJson (TextString " hi ")) initial_world
        = (RespondOk 1 (Some "/audio/jarvis_1.mp3"), w') ∧
        messages (db w') = <[1 := mkRow "t0" "jarvis" "hi" (Some "/audio/jarvis_1.mp3") 0]> ∅ ∧
        messages (db initial_world) !! 1 = None ∧
        relay_calls w' = [] ∧
        tts_calls w' = [("hi", 1)].
Proof.
  destruct (respond_stores_reply (constant_env HttpError (TtsExit true)) " hi " initial_world)
    as [_ Hok].
  apply Hok. reflexivity.
Defined.

Lemma handle_keeps_rows
    (env : Env) (r : Request) (w : World) (k : Z) (row : Row) :
  messages (db w) !! k = Some row →
  messages (db (handle env r w).2) !! k = Some row ∨
  (r = PostDelivered (Some k) ∧
   messages (db (handle env r w).2) !! k = Some (set_delivered row)).
Proof.
  intros Hk.
  assert (Hlt : k < next_rowid (db w)).
  { apply max_rowid_ge in Hk. unfold next_rowid. lia. }
  destruct (handle_tables env r w) as (relay & tts & _ & _ & Hcase).
  destruct Hcase as [(-> & _)|[(k0 & -> & -> & _)|[Hc|[Hc|Hc]]]].
  - by left.
  - rewrite lookup_alter. case_decide; subst; rewrite Hk; [by right|by left].
  - destruct Hc as (txt & now1 & _ & _ & _ & -> & _).
    left. by rewrite lookup_insert_ne by lia.
  - destruct Hc as (txt & c & now1 & now2 & ap & _ & _ & _ & _ & _ & -> & _).
    left. by rewrite !lookup_insert_ne by lia.
  - destruct Hc as (txt & now1 & ap & _ & _ & _ & _ & -> & _).
    left. by rewrite lookup_insert_ne by lia.
Qed.

(** X8. No request changes or removes a row that is already stored, except
    that acknowledging an id sets that row's [delivered] column: after any
    request every earlier row is found under its id with the same
    timestamp, direction, text and audio path. *)
Theorem requests_keep_stored_rows
    (env : Env) (r : Request) (w : World) (k : Z) (row : Row) :
  messages (db w) !! k = Some row →
  messages (db (handle env r w).2) !! k = Some row ∨
  (r = PostDelivered (Some k) ∧
   messages (db (handle env r w).2) !! k = Some (set_delivered row)).
Proof. apply handle_keeps_rows. Qed.

Lemma requests_keep_stored_rows_witness :
  let env := constant_env (HttpContent "hi there") (TtsExit true) in
  let w := (handle env (PostSpeak (BodyJson (TextString "hello"))) initial_world).2 in
  let row := mkRow "t0" "user" "hello" None 0 in
  messages (db (handle env (PostRespond (BodyJson (TextString "more"))) w).2) !! 1 = Some row ∨
  (PostRespond (BodyJson (TextString "more")) = PostDelivered (Some 1) ∧
   messages (db (handle env (PostRespond (BodyJson (TextString "more"))) w).2) !! 1
   = Some (set_delivered row)).
Proof.
  intros env w row.
  apply (requests_keep_stored_rows env (PostRespond (BodyJson (TextString "more"))) w 1 row).
  reflexivity.
Defined.

Section AudioNames.

Lemma append_cancel_r (x y s : string) : x +:+ s = y +:+ s → x = y.
Proof.
  revert y. induction x as [|c x IH]; intros [|c' y] Heq.
  - done.
  - apply (f_equal String.length) in Heq. rewrite !length_append in Heq.
    simpl in Heq. lia.
  - apply (f_equal String.length) in Heq. rewrite !length_append in Heq.
    simpl in Heq. lia.
  - change (String c (x +:+ s) = String c' (y +:+ s)) in Heq.
    injection Heq as -> Heq. f_equal. by apply IH.
Qed.

Lemma audio_url_inj (i j : Z) : audio_url i = audio_url j → i = j.
Proof.
  unfold audio_url. intros Heq.
  apply (inj (String.append "/audio/jarvis_")) in Heq.
  apply append_cancel_r in Heq. by apply (inj pretty).
Qed.

End AudioNames.

(** X9. In every world reachable from a fresh database, a row that has an
    audio path is an agent row and the path is the file name built from the
    row's own id; the name determines the id, so no two rows share an audio
    path. *)
Theorem audio_path_names_its_row (env : Env) (w : World) :
  reachable env w →
  (∀ k row p, messages (db w) !! k = Some row → audio_path row = Some p →
     p = audio_url k ∧ direction row = "jarvis") ∧
  (∀ k1 k2 row1 row2 p,
     messages (db w) !! k1 = Some row1 → messages (db w) !! k2 = Some row2 →
     audio_path row1 = Some p → audio_path row2 = Some p → k1 = k2).
Proof.
  intros Hreach.
  assert (Hnamed : ∀ k row p, messages (db w) !! k = Some row →
            audio_path row = Some p → p = audio_url k ∧ direction row = "jarvis").
  { induction Hreach as [|w r _ IH]; [intros k row p Hk; simpl in Hk; by rewrite lookup_empty in Hk|].
    intros k row p.
    destruct (handle_tables env r w) as (relay & tts & _ & _ & Hcase).
    destruct Hcase as [(-> & _)|[(k0 & _ & -> & _)|[Hc|[Hc|Hc]]]].
    - apply IH.
    - rewrite lookup_alter. case_decide; [subst|apply IH].
      destruct (messages (db w) !! k) as [row0|] eqn:Hrow0; [|done].
      intros [= <-]. simpl. by apply IH.
    - destruct Hc as (txt & now1 & _ & _ & _ & -> & _).
      rewrite lookup_insert. case_decide; [by intros [= <-]|apply IH].
    - destruct Hc as (txt & c & now1 & now2 & ap & _ & _ & _ & _ & Hap & -> & _).
      rewrite lookup_insert. case_decide.
      { subst k. intros [= <-]. simpl. destruct Hap as [-> | ->]; [done|].
        by intros [= <-]. }
      rewrite lookup_insert. case_decide; [by intros [= <-]|apply IH].
    - destruct Hc as (txt & now1 & ap & _ & _ & _ & Hap & -> & _).
      rewrite lookup_insert. case_decide; [|apply IH].
      subst k. intros [= <-]. simpl. destruct Hap as [-> | ->]; [done|].
      by intros [= <-]. }
  split; [done|].
  intros k1 k2 row1 row2 p H1 H2 Hp1 Hp2.
  destruct (Hnamed _ _ _ H1 Hp1) as [-> _].
  destruct (Hnamed _ _ _ H2 Hp2) as [Heq _].
  by apply audio_url_inj.
Qed.

Lemma audio_path_names_its_row_witness :
  let env := constant_env (HttpContent "hi there") (TtsExit true) in
  let w := (handle env (PostSpeak (BodyJson (TextString "hello"))) initial_world).2 in
  reachable env w ∧
  ("/audio/jarvis_2.mp3" = audio_url 2 ∧ "jarvis" = "jarvis").
Proof.
  intros env w.
  assert (Hreach : reachable env w) by apply reachable_step, reachable_init.
  split; [exact Hreach|].
  destruct (audio_path_names_its_row env w Hreach) as [Hnamed _].
  apply (Hnamed 2 (mkRow "t1" "jarvis" "hi there" (Some "/audio/jarvis_2.mp3") 0));
    reflexivity.
Defined.

Section Dense.

Lemma dense_next (d : DB) :
  0 ≤ sqlite_sequence d →
  (∀ k, is_Some (messages d !! k) → k ≤ sqlite_sequence d) →
  next_rowid d = sqlite_sequence d + 1.
Proof.
  intros Hseq Hle. unfold next_rowid.
  assert (max_rowid (messages d) ≤ sqlite_sequence d); [|lia].
  apply max_rowid_le; [done|]. intros k r Hk. apply Hle. by eexists.
Qed.

End Dense.

(** X10. In every world reachable from a fresh database the ids in use are
    exactly 1, 2, ..., n with no gap, where n is the AUTOINCREMENT counter,
    and the next insert gets n + 1. *)
Theorem ids_are_gap_free (env : Env) (w : World) :
  reachable env w →
  (∀ k, is_Some (messages (db w) !! k) ↔ 1 ≤ k ≤ sqlite_sequence (db w)) ∧
  next_rowid (db w) = sqlite_sequence (db w) + 1.
Proof.
  intros Hreach.
  assert (Hdense : 0 ≤ sqlite_sequence (db w) ∧
            ∀ k, is_Some (messages (db w) !! k) ↔ 1 ≤ k ≤ sqlite_sequence (db w)).
  { induction Hreach as [|w r _ [Hseq IH]].
    { split; [done|]. intros k. simpl. rewrite lookup_empty. split; [by intros [? ?]|lia]. }
    assert (Hn : next_rowid (db w) = sqlite_sequence (db w) + 1).
    { apply dense_next; [done|]. intros k Hk. apply IH in Hk. lia. }
    destruct (handle_tables env r w) as (relay & tts & _ & _ & Hcase).
    rewrite Hn in Hcase.
    destruct Hcase as [(-> & -> & _)|[(k0 & _ & -> & -> & _)|[Hc|[Hc|Hc]]]].
    - done.
    - split; [done|]. intros k. rewrite <-IH, lookup_alter.
      case_decide; subst; by rewrite ?fmap_is_Some.
    - destruct Hc as (txt & now1 & _ & _ & _ & -> & ->).
      split; [lia|]. intros k. rewrite lookup_insert_is_Some, IH. lia.
    - destruct Hc as (txt & c & now1 & now2 & ap & _ & _ & _ & _ & _ & -> & ->).
      split; [lia|]. intros k. rewrite !lookup_insert_is_Some, IH. lia.
    - destruct Hc as (txt & now1 & ap & _ & _ & _ & _ & -> & ->).
      split; [lia|]. intros k. rewrite lookup_insert_is_Some, IH. lia. }
  destruct Hdense as [Hseq Hdense]. split; [done|].
  apply dense_next; [done|]. intros k Hk. apply Hdense in Hk. lia.
Qed.

Lemma ids_are_gap_free_witness :
  let env := constant_env (HttpContent "hi there") TtsTimeout in
  let w := (handle env (PostSpeak (BodyJson (TextString "hello"))) initial_world).2 in
  reachable env w ∧ next_rowid (db w) = sqlite_sequence (db w) + 1.
Proof.
  intros env w.
  assert (Hreach : reachable env w) by apply reachable_step, reachable_init.
  split; [exact Hreach|].
  exact (proj2 (ids_are_gap_free env w Hreach)).
Defined.

(** X11. In every world reachable from a fresh database, each call made to
    the relay carried the text and the id of a user row that is in the
    store, and each synthesis run carried the text and the id of an agent
    row that is in the store. *)
Theorem calls_refer_to_stored_rows (env : Env) (w : World) :
  reachable env w →
  (∀ txt i, (txt, i) ∈ relay_calls w →
     ∃ row, messages (db w) !! i = Some row ∧ direction row = "user" ∧ text row = txt) ∧
  (∀ txt i, (txt, i) ∈ tts_calls w →
     ∃ row, messages (db w) !! i = Some row ∧ direction row = "jarvis" ∧ text row = txt).
Proof.
  induction 1 as [|w r _ [IHr IHt]]; [split; intros txt i Hin; by apply elem_of_nil in Hin|].
  assert (Hkeep : ∀ k row, messages (db w) !! k = Some row →
            ∃ row', messages (db (handle env r w).2) !! k = Some row' ∧
                    direction row' = direction row ∧ text row' = text row).
  { intros k row Hk.
    destruct (handle_keeps_rows env r w k row Hk) as [Hsame|[_ Hset]]; eauto. }
  destruct (handle_tables env r w) as (relay & tts & -> & -> & Hcase).
  assert (Hold_r : ∀ txt i, (txt, i) ∈ relay_calls w →
            ∃ row, messages (db (handle env r w).2) !! i = Some row ∧
                   direction row = "user" ∧ text row = txt).
  { intros txt i (row & Hrow & Hd & Ht)%IHr.
    destruct (Hkeep i row Hrow) as (row' & ? & Hd' & Ht'). exists row'.
    by rewrite Hd', Ht'. }
  assert (Hold_t : ∀ txt i, (txt, i) ∈ tts_calls w →
            ∃ row, messages (db (handle env r w).2) !! i = Some row ∧
                   direction row = "jarvis" ∧ text row = txt).
  { intros txt i (row & Hrow & Hd & Ht)%IHt.
    destruct (Hkeep i row Hrow) as (row' & ? & Hd' & Ht'). exists row'.
    by rewrite Hd', Ht'. }
  destruct Hcase as [(_ & _ & -> & ->)|[(k0 & _ & _ & _ & -> & ->)|[Hc|[Hc|Hc]]]].
  - rewrite !app_nil_r. done.
  - rewrite !app_nil_r. done.
  - destruct Hc as (txt & now1 & _ & -> & -> & Hm & _). rewrite app_nil_r.
    split; [|done]. intros t i [Hin|Hin]%elem_of_app; [by apply Hold_r|].
    apply list_elem_of_singleton in Hin. injection Hin as -> ->.
    rewrite Hm, lookup_insert_eq. by eexists.
  - destruct Hc as (txt & c & now1 & now2 & ap & _ & _ & -> & -> & _ & Hm & _).
    split; intros t i [Hin|Hin]%elem_of_app; [by apply Hold_r| |by apply Hold_t|];
      apply list_elem_of_singleton in Hin; injection Hin as -> ->; rewrite Hm.
    + rewrite lookup_insert_ne by lia. rewrite lookup_insert_eq. by eexists.
    + rewrite lookup_insert_eq. by eexists.
  - destruct Hc as (txt & now1 & ap & _ & -> & -> & _ & Hm & _). rewrite app_nil_r.
    split; [done|]. intros t i [Hin|Hin]%elem_of_app; [by apply Hold_t|].
    apply list_elem_of_singleton in Hin. injection Hin as -> ->.
    rewrite Hm, lookup_insert_eq. by eexists.
Qed.

Lemma calls_refer_to_stored_rows_witness :
  let env := constant_env (HttpContent "hi there") TtsTimeout in
  let w := (handle env (PostSpeak (BodyJson (TextString "hello"))) initial_world).2 in
  reachable env w ∧
  ∃ row, messages (db w) !! 1 = Some row ∧ direction row = "user" ∧ text row = "hello".
Proof.
  intros env w.
  assert (Hreach : reachable env w) by apply reachable_step, reachable_init.
  split; [exact Hreach|].
  destruct (calls_refer_to_stored_rows env w Hreach) as [Hrelay _].
  apply Hrelay. apply list_elem_of_here.
Defined.

(** * From the microphone to the submit handler *)

Section Solid.
Import Text.

Lemma js_space_is_py_space (c : ascii) : js_isspace c = true → py_isspace c = true.
Proof. destruct c as [[] [] [] [] [] [] [] []]; vm_compute; done. Qed.

Lemma lstrip_head (sp : ascii → bool) (s : string) (c : ascii) (r : string) :
  lstrip sp s = String c r → sp c = false.
Proof.
  induction s as [|c' s IH]; simpl; [discriminate|].
  destruct (sp c') eqn:Hc; [done|]. by intros [= <- _].
Qed.

Lemma strip_head_solid (s : string) :
  nonempty (strip py_isspace s) = true → head_solid (strip py_isspace s) = true.
Proof.
  unfold strip. destruct (lstrip py_isspace (rstrip py_isspace s)) as [|c r] eqn:Hl;
    [done|]. intros _. simpl. by rewrite (lstrip_head _ _ _ _ Hl).
Qed.

Lemma rstrip_head (sp : ascii → bool) (c : ascii) (s : string) :
  sp c = false → ∃ r, rstrip sp (String c s) = String c r.
Proof.
  intros Hc. simpl. destruct (rstrip sp s); rewrite ?Hc; eauto.
Qed.

Lemma trim_head (c : ascii) (s : string) :
  js_isspace c = false → ∃ r, trim (String c s) = String c r.
Proof.
  intros Hc. unfold trim, strip.
  destruct (rstrip_head js_isspace c s Hc) as [r ->]. simpl. rewrite Hc. eauto.
Qed.

Lemma head_solid_js (c : ascii) : py_isspace c = false → js_isspace c = false.
Proof.
  intros Hc. destruct (js_isspace c) eqn:Hj; [|done].
  apply js_space_is_py_space in Hj. congruence.
Qed.

Lemma trim_solid (s : string) : head_solid s = true → trim s = s ∨ head_solid (trim s) = true.
Proof.
  destruct s as [|c s]; [done|]. simpl. intros Hc%negb_true_iff.
  destruct (trim_head c s (head_solid_js c Hc)) as [r ->]. right. simpl. by rewrite Hc.
Qed.

Lemma trim_head_solid (s : string) : head_solid s = true → head_solid (trim s) = true.
Proof.
  destruct s as [|c s]; [done|]. simpl. intros Hc%negb_true_iff.
  destruct (trim_head c s (head_solid_js c Hc)) as [r ->]. simpl. by rewrite Hc.
Qed.

Lemma trim_prefix_solid (p w : string) :
  head_solid (p +:+ w) = true → nonempty (trim p) = true →
  head_solid (trim p) = true.
Proof.
  destruct p as [|c p]; [done|]. intros Hs _. by apply trim_head_solid.
Qed.

Lemma join_solid (x : string) (l : list string) :
  head_solid x = true → head_solid (join (x :: l)) = true.
Proof.
  destruct x as [|c x]; [done|]. intros Hc. unfold join. simpl.
  by destruct l.
Qed.

Lemma head_solid_not_blank (t : string) :
  head_solid t = true → all_space py_isspace t = false.
Proof.
  destruct t as [|c t]; [done|]. simpl. intros Hc%negb_true_iff. by rewrite Hc.
Qed.

Lemma sendBufferedSpeech_solid (st : State) (out : list string) :
  solid_state st out → solid_state (sendBufferedSpeech st) out.
Proof.
  intros [Hbuf (new & Hsent & Hnew)]. unfold sendBufferedSpeech.
  destruct (speechBuffer st) as [|x l] eqn:Hb; [split; [by rewrite Hb|eauto]|].
  assert (Hfull : head_solid (trim (join (x :: l))) = true).
  { apply trim_head_solid, join_solid. by inv Hbuf. }
  destruct (nonempty _); (split; [constructor|]).
  - exists (new ++ [trim (join (x :: l))]). cbn [sendToServer sent]. split.
    + by rewrite Hsent, (assoc_L (++)).
    + apply Forall_app. split; [done|]. by constructor.
  - by exists new.
Qed.

Lemma processAudio_solid (overMode : bool) (t : string) (st : State) (out : list string) :
  head_solid t = true →
  solid_state st out → solid_state (processAudio overMode (Some t) st) out.
Proof.
  intros Ht [Hbuf (new & Hsent & Hnew)]. unfold processAudio.
  destruct (nonempty t && negb (String.eqb t "(silence)")); [|split; eauto].
  assert (Hseg : head_solid (trim t) = true) by (by apply trim_head_solid).
  destruct overMode.
  - destruct (said_over (trim t)) eqn:Hsaid.
    + apply said_over_spec in Hsaid as (p & w & Hpw & Hw).
      rewrite Hpw, clean_text by done. rewrite Hpw in Hseg.
      apply sendBufferedSpeech_solid.
      destruct (nonempty (trim p)) eqn:Hp; [|split; eauto].
      split; [|by exists new]. cbn [push speechBuffer].
      apply Forall_app. split; [done|]. constructor; [|done].
      by apply (trim_prefix_solid p w).
    + split; [|by exists new]. cbn [push speechBuffer].
      apply Forall_app. split; [done|]. by constructor.
  - split; [done|]. exists (new ++ [trim t]). cbn [sendToServer sent]. split.
    + by rewrite Hsent, (assoc_L (++)).
    + apply Forall_app. split; [done|]. by constructor.
Qed.

Lemma hear_solid (overMode : bool) (o : TranscribeOutcome) (st : State) (out : list string) :
  solid_state st out → solid_state (hear overMode o st) out.
Proof.
  intros Hst. unfold hear, transcribe_handler.
  destruct o as [e| |texts]; [done..|].
  destruct (nonempty (strip py_isspace (String.concat " " texts))) eqn:Hne; simpl.
  - apply processAudio_solid; [|done]. by apply strip_head_solid.
  - exact Hst.
Qed.

Lemma buffer_steps_solid (overMode : bool) (es : list BufferEvent) (st : State)
    (out : list string) :
  solid_state st out → solid_state (foldl (buffer_step overMode) st es) out.
Proof.
  revert st. induction es as [|e es IH]; intros st Hst; [done|].
  simpl. apply IH. destruct e as [o|]; simpl.
  - by apply hear_solid.
  - destruct (speechBuffer st) eqn:Hb; [done|]. by apply sendBufferedSpeech_solid.
Qed.

End Solid.

(** X12. For transcripts made of characters below U+0100, where every
    character that [trim()] removes is one that [strip()] removes too:
    whatever chunks come back from [transcribe_handler] and whenever Send is
    clicked, starting from an empty buffer, every text the browser passes to
    [sendToServer], in over mode or not, starts with a character that is
    not white space, and no buffered segment is empty; so [speak_handler]
    never answers such a text with 400: it stores it as a user row under
    the id the store assigns next.  (Above U+00FF the inclusion fails, for
    U+FEFF, which only [trim()] removes; those characters are outside of
    what a [string] holds here.) *)
Theorem heard_text_is_never_blank
    (overMode : bool) (es : list BufferEvent) (out : list string) :
  let st := foldl (buffer_step overMode) (Client.mkState [] out) es in
  Forall (λ t, Text.nonempty t = true) (Client.speechBuffer st) ∧
  ∃ new, Client.sent st = out ++ new ∧
    ∀ t, t ∈ new →
      head_solid t = true ∧
      ∀ env w, ∃ answer w',
        speak_handler env (BodyJson (TextString t)) w = (answer, w') ∧
        messages (db w') !! next_rowid (db w)
          = Some (mkRow (now env (clock w)) "user"
                        (Text.strip Text.py_isspace t) None 0) ∧
        ∀ error, answer ≠ BadRequest error.
Proof.
  intros st.
  assert (Hsolid : solid_state st out).
  { apply buffer_steps_solid. split; [constructor|]. exists []. by rewrite app_nil_r. }
  destruct Hsolid as [Hbuf (new & Hsent & Hnew)]. split.
  - eapply Forall_impl; [exact Hbuf|]. by intros [|c t].
  - exists new. split; [done|]. intros t Ht.
    rewrite Forall_forall in Hnew. specialize (Hnew t Ht). split; [done|].
    intros env w. apply head_solid_not_blank, strip_solid in Hnew.
    destruct (speak_handler_accepts env t w Hnew)
      as (answer & w' & Hrun & Hrow & Herr & Hok).
    exists answer, w'. split; [done|]. split; [done|]. intros error ->.
    cbv zeta in Herr, Hok.
    set (o := urlopen env (length (relay_calls w))
                (Text.strip Text.py_isspace t) (next_rowid (db w))) in *.
    assert (Hcases : o = HttpContentList ∨ o ≠ HttpContentList)
      by (destruct o; auto).
    destruct Hcases as [Hl|Hl].
    + discriminate (proj2 Herr Hl).
    + by destruct (Hok Hl) as [? [=]].
Qed.

(** * The feed in the browser *)

Section Rendering.
Import Feed.

Local Ltac poll_cases m :=
  unfold poll_one, queue_if_audio, new_agent_messages;
  case_decide;
  [|destruct (String.eqb (msg_direction m) "jarvis") eqn:?;
    [destruct (msg_audio_path m) as [?p|]; [destruct (Text.nonempty p)|]|]];
  simpl; rewrite ?decide_True, ?decide_False by done;
  repeat match goal with
         | H : String.eqb _ _ = _ |- _ => rewrite H; clear H
         end;
  rewrite ?app_nil_r.

Lemma poll_one_cursor (v : View) (m : Message) :
  lastMessageId (poll_one v m) = Z.max (lastMessageId v) (id m).
Proof. poll_cases m; done. Qed.

Lemma poll_one_displayed (v : View) (m : Message) :
  displayedMessageIds (poll_one v m) = displayedMessageIds v ∪ {[id m]}.
Proof.
  poll_cases m; apply set_eq; intros x;
    rewrite ?elem_of_union, ?elem_of_singleton;
    split; try tauto; intros [?| ->]; auto.
Qed.

Lemma poll_one_shown (v : View) (m : Message) :
  shown (poll_one v m) = shown v ++ new_agent_messages (displayedMessageIds v) [m].
Proof. poll_cases m; done. Qed.

Lemma poll_one_seen (v : View) (m : Message) :
  id m ∈ displayedMessageIds v →
  shown (poll_one v m) = shown v ∧ player (poll_one v m) = player v.
Proof. intros Hin. unfold poll_one. by rewrite decide_True. Qed.

Lemma new_agent_messages_app (S : gset Z) (l1 l2 : list Message) :
  new_agent_messages S (l1 ++ l2) = new_agent_messages S l1 ++ new_agent_messages S l2.
Proof. apply omap_app. Qed.

Lemma new_agent_messages_ext (S S' : gset Z) (l : list Message) :
  (∀ m, m ∈ l → id m ∈ S ↔ id m ∈ S') →
  new_agent_messages S l = new_agent_messages S' l.
Proof.
  induction l as [|m l IH]; intros Hl; [done|].
  rewrite !(new_agent_messages_app _ [m] l : new_agent_messages _ (m :: l) = _).
  rewrite IH by (intros m' Hm'; apply Hl; by right). f_equal.
  assert (Hm : id m ∈ S ↔ id m ∈ S') by (apply Hl; by left).
  unfold new_agent_messages. simpl.
  destruct (decide (id m ∈ S)), (decide (id m ∈ S')); tauto || done.
Qed.

Lemma pollMessages_cursor (l : list Message) (v : View) :
  lastMessageId (foldl poll_one v l) = foldl Z.max (lastMessageId v) (id <$> l).
Proof.
  revert v. induction l as [|m l IH]; intros v; [done|].
  simpl. by rewrite IH, poll_one_cursor.
Qed.

Lemma pollMessages_displayed (l : list Message) (v : View) :
  displayedMessageIds (foldl poll_one v l)
  = displayedMessageIds v ∪ list_to_set (id <$> l).
Proof.
  revert v. induction l as [|m l IH]; intros v; simpl.
  { by rewrite (right_id_L ∅ (∪)). }
  rewrite IH, poll_one_displayed. by rewrite (assoc_L (∪)).
Qed.

Lemma pollMessages_shown (l : list Message) (v : View) :
  NoDup (id <$> l) →
  shown (foldl poll_one v l) = shown v ++ new_agent_messages (displayedMessageIds v) l.
Proof.
  revert v. induction l as [|m l IH]; intros v Hnd; cbn [foldl].
  { by rewrite app_nil_r. }
  rewrite fmap_cons in Hnd. apply NoDup_cons in Hnd as [Hm Hnd].
  rewrite IH, poll_one_shown, poll_one_displayed by done.
  rewrite <-(assoc_L (++)). f_equal.
  rewrite (new_agent_messages_app _ [m] l : new_agent_messages _ (m :: l) = _).
  f_equal. apply new_agent_messages_ext. intros m' Hm'.
  assert (id m' ≠ id m).
  { intros Heq. apply Hm. rewrite <-Heq. by apply list_elem_of_fmap_2. }
  rewrite elem_of_union, elem_of_singleton. tauto.
Qed.

Lemma pollMessages_seen (l : list Message) (v : View) :
  (∀ m, m ∈ l → id m ∈ displayedMessageIds v) →
  shown (foldl poll_one v l) = shown v ∧ player (foldl poll_one v l) = player v.
Proof.
  revert v. induction l as [|m l IH]; intros v Hl; [done|]. simpl.
  destruct (poll_one_seen v m) as [Hs Hp]; [apply Hl; by left|].
  rewrite <-Hs, <-Hp. apply IH. intros m' Hm'.
  rewrite poll_one_displayed. apply elem_of_union_l, Hl. by right.
Qed.

End Rendering.

(** X13. One run of [pollMessages] over a batch moves the cursor to the
    greatest of the old cursor and the ids of the batch, marks every id of
    the batch displayed, and (for a batch without repeated ids) appends to
    the transcript exactly the agent messages whose id was not displayed
    yet, in batch order; user messages are never appended.  A batch whose
    ids are all displayed already changes neither the transcript nor the
    playback queue, so a batch delivered a second time is shown and played
    once. *)
Theorem poll_batch_rendering (l : list Message) (v : Feed.View) :
  let v' := Feed.pollMessages (Some l) v in
  Feed.lastMessageId v' = foldl Z.max (Feed.lastMessageId v) (id <$> l) ∧
  Feed.displayedMessageIds v'
    = Feed.displayedMessageIds v ∪ list_to_set (id <$> l) ∧
  (NoDup (id <$> l) →
     Feed.shown v'
     = Feed.shown v ++ Feed.new_agent_messages (Feed.displayedMessageIds v) l) ∧
  ((∀ m, m ∈ l → id m ∈ Feed.displayedMessageIds v) →
     Feed.shown v' = Feed.shown v ∧ Feed.player v' = Feed.player v) ∧
  Feed.shown (Feed.pollMessages (Some l) v') = Feed.shown v' ∧
  Feed.player (Feed.pollMessages (Some l) v') = Feed.player v'.
Proof.
  intros v'. subst v'. simpl.
  split; [apply pollMessages_cursor|]. split; [apply pollMessages_displayed|].
  split; [apply pollMessages_shown|]. split; [apply pollMessages_seen|].
  apply pollMessages_seen. intros m Hm. rewrite pollMessages_displayed.
  apply elem_of_union_r, elem_of_list_to_set. by apply list_elem_of_fmap_2.
Qed.

Lemma poll_batch_rendering_witness :
  let l := [mkMessage 1 "t0" "user" "hello" None;
            mkMessage 2 "t1" "jarvis" "hi there" (Some "/audio/jarvis_2.mp3")] in
  Feed.shown (Feed.pollMessages (Some l) Feed.fresh_view)
  = [] ++ Feed.new_agent_messages ∅ l.
Proof.
  intros l.
  destruct (poll_batch_rendering l Feed.fresh_view) as (_ & _ & Hshown & _).
  apply Hshown. apply (bool_decide_unpack (NoDup (id <$> l))). vm_compute. exact I.
Defined.

Section Rounds.
Import Feed.

Lemma foldl_max_ascending (c : Z) (l : list Z) :
  StronglySorted Z.lt l → Forall (λ x, c < x) l →
  foldl Z.max c l = default c (last l).
Proof.
  revert c. induction l as [|x l IH]; intros c Hs Hall; [done|].
  apply StronglySorted_cons in Hs as [Hx Hs]. apply Forall_cons in Hall as [Hc _].
  cbn [foldl]. rewrite Z.max_r by lia. rewrite IH by done.
  destruct l as [|y l]; [done|]. rewrite last_cons_cons.
  destruct (last (y :: l)) eqn:Hl; [done|]. by apply last_None in Hl.
Qed.

Lemma StronglySorted_NoDup_lt (l : list Z) : StronglySorted Z.lt l → NoDup l.
Proof.
  induction 1 as [|x l _ IH Hall]; constructor; [|done].
  intros Hx. rewrite Forall_forall in Hall. specialize (Hall x Hx). lia.
Qed.

Lemma take_nil_inv {A} (n : nat) (l : list A) : (0 < n)%nat → take n l = [] → l = [].
Proof. intros Hn. destruct l, n; simpl; [done|done|lia|done]. Qed.

Lemma poll_round_unfold (w : World) (v : View) :
  int64 (lastMessageId v) = true →
  poll_round w v
  = foldl poll_one v (db_get_messages_since (lastMessageId v) 50 (db w)).
Proof. intros Hc. unfold poll_round. by rewrite poll_handler_run, Hc. Qed.

(** A poll that the server answers with an error shows nothing. *)
Lemma poll_round_refused (w : World) (v : View) :
  int64 (lastMessageId v) = false → poll_round w v = v.
Proof. intros Hc. unfold poll_round. by rewrite poll_handler_run, Hc. Qed.

Lemma pending_ids_in_int64 (c : Z) (d : DB) (l : list Message) :
  ids_in_int64 d → l ⊆ pending_since c d → int64 c = true →
  int64 (default c (last (id <$> l))) = true.
Proof.
  intros Hids Hl Hc. rewrite fmap_last.
  destruct (last l) as [m|] eqn:Hlast; [|done]. simpl.
  apply last_Some_elem_of, Hl, elem_of_pending_since in Hlast as (r & Hr & _).
  by eapply Hids.
Qed.

(** One round takes the first 50 pending entries and leaves the cursor
    where the rest is pending. *)
Lemma poll_round_effect (w : World) (v : View) :
  let pending := pending_since (lastMessageId v) (db w) in
  let v1 := poll_round w v in
  int64 (lastMessageId v) = true →
  lastMessageId v1 = default (lastMessageId v) (last (id <$> take 50 pending)) ∧
  displayedMessageIds v1
    = displayedMessageIds v ∪ list_to_set (id <$> take 50 pending) ∧
  shown v1 = shown v ++ new_agent_messages (displayedMessageIds v) (take 50 pending) ∧
  pending_since (lastMessageId v1) (db w) = drop 50 pending.
Proof.
  intros pending v1 Hc. subst v1. rewrite poll_round_unfold by done.
  assert (Hbatch : db_get_messages_since (lastMessageId v) 50 (db w) = take 50 pending)
    by (by rewrite pending_since_take by lia).
  pose proof (read_since_ids_sorted (db w) (lastMessageId v) 50) as Hsorted.
  pose proof (read_since_ids_above (db w) (lastMessageId v) 50) as Habove.
  rewrite Hbatch in *.
  assert (Hcur : lastMessageId (foldl poll_one v (take 50 pending))
                 = default (lastMessageId v) (last (id <$> take 50 pending))).
  { rewrite pollMessages_cursor. apply foldl_max_ascending; [done|].
    by rewrite Forall_fmap. }
  split; [done|]. split; [apply pollMessages_displayed|]. split.
  { apply pollMessages_shown. by apply StronglySorted_NoDup_lt. }
  rewrite Hcur, fmap_last.
  destruct (last (take 50 pending)) as [m|] eqn:Hlast; simpl.
  - by apply pending_since_after.
  - apply last_None in Hlast. apply take_nil_inv in Hlast; [|lia].
    fold pending. by rewrite Hlast.
Qed.

Lemma poll_rounds_effect (n : nat) (w : World) (v : View) :
  let pending := pending_since (lastMessageId v) (db w) in
  let v' := poll_rounds n w v in
  int64 (lastMessageId v) = true →
  ids_in_int64 (db w) →
  (length pending ≤ 50 * n)%nat →
  shown v' = shown v ++ new_agent_messages (displayedMessageIds v) pending ∧
  displayedMessageIds v' = displayedMessageIds v ∪ list_to_set (id <$> pending) ∧
  lastMessageId v' = default (lastMessageId v) (last (id <$> pending)) ∧
  pending_since (lastMessageId v') (db w) = [].
Proof.
  revert v. induction n as [|n IH]; intros v pending v' Hc Hids Hlen; subst v'.
  - assert (Hnil : pending = []) by (apply length_zero_iff_nil; lia).
    subst pending. simpl. rewrite Hnil. simpl.
    rewrite app_nil_r, (right_id_L ∅ (∪)). done.
  - unfold poll_rounds. rewrite Nat.iter_succ_r.
    destruct (poll_round_effect w v Hc) as (Hcur & Hdisp & Hshown & Hrest).
    fold pending in Hcur, Hdisp, Hshown, Hrest.
    set (v1 := poll_round w v) in *.
    destruct (IH v1) as (IHshown & IHdisp & IHcur & IHrest).
    { rewrite Hcur. apply (pending_ids_in_int64 _ (db w)); [done| |done].
      intros m Hm. by apply (subseteq_take 50). }
    { done. }
    { rewrite Hrest, length_drop. lia. }
    unfold poll_rounds in *. rewrite Hrest in IHshown, IHdisp, IHcur.
    assert (Hsplit : pending = take 50 pending ++ drop 50 pending)
      by (by rewrite take_drop).
    pose proof (read_since_ids_sorted (db w) (lastMessageId v) (-1)) as Hsorted.
    fold (pending_since (lastMessageId v) (db w)) in Hsorted. fold pending in Hsorted.
    assert (Hnew : ∀ S, new_agent_messages S pending
               = new_agent_messages S (take 50 pending)
                 ++ new_agent_messages S (drop 50 pending)).
    { intros S. rewrite Hsplit at 1. apply new_agent_messages_app. }
    assert (Hlast : last (id <$> pending)
               = match last (id <$> drop 50 pending) with
                 | Some y => Some y
                 | None => last (id <$> take 50 pending)
                 end).
    { rewrite Hsplit at 1. by rewrite fmap_app, last_app. }
    split; [|split; [|split; [|done]]].
    + rewrite IHshown, Hshown, Hdisp, <-(assoc_L (++)). f_equal.
      rewrite Hnew. f_equal.
      apply new_agent_messages_ext. intros m Hm.
      rewrite elem_of_union, elem_of_list_to_set.
      split; [|by left]. intros [?|Hin]; [done|]. exfalso.
      rewrite Hsplit, fmap_app in Hsorted.
      assert (id m < id m); [|lia].
      eapply (StronglySorted_app_1_elem_of _ _ _ _ _ Hsorted); [done|].
      by apply list_elem_of_fmap_2.
    + rewrite IHdisp, Hdisp, <-(assoc_L (∪)), <-list_to_set_app_L, <-fmap_app.
      by rewrite <-Hsplit.
    + rewrite IHcur, Hcur, Hlast.
      by destruct (last (id <$> drop 50 pending)).
Qed.

End Rounds.

(** X14. A browser that polls a store which is not being written to, each
    time from the cursor the previous batch left, has after enough rounds
    (50 entries per round) shown every pending agent message it had not
    displayed, once each and in ascending id order; every pending id is
    marked displayed, the cursor is the last pending id, and a further
    round changes nothing.  The cursor it starts from is a 64-bit integer,
    as the ids of the store are: the server answers any other cursor with
    an error, and such a round shows nothing. *)
Theorem polling_shows_every_pending_message_once
    (n : nat) (w : World) (v : Feed.View) :
  let pending := pending_since (Feed.lastMessageId v) (db w) in
  let v' := Feed.poll_rounds n w v in
  int64 (Feed.lastMessageId v) = true →
  ids_in_int64 (db w) →
  (length pending ≤ 50 * n)%nat →
  Feed.shown v'
    = Feed.shown v ++ Feed.new_agent_messages (Feed.displayedMessageIds v) pending ∧
  Feed.displayedMessageIds v'
    = Feed.displayedMessageIds v ∪ list_to_set (id <$> pending) ∧
  Feed.lastMessageId v'
    = default (Feed.lastMessageId v) (last (id <$> pending)) ∧
  Feed.poll_round w v' = v'.
Proof.
  intros pending v' Hc Hids Hlen.
  destruct (poll_rounds_effect n w v Hc Hids Hlen) as (Hshown & Hdisp & Hcur & Hrest).
  fold pending v' in Hshown, Hdisp, Hcur, Hrest.
  split; [done|]. split; [done|]. split; [done|].
  destruct (int64 (Feed.lastMessageId v')) eqn:Hc'; [|by apply poll_round_refused].
  rewrite poll_round_unfold, pending_since_take by (done || lia). by rewrite Hrest.
Qed.

Lemma polling_shows_every_pending_message_once_witness :
  let env := constant_env (HttpContent "hi there") (TtsExit true) in
  let w := (handle env (PostSpeak (BodyJson (TextString "hello"))) initial_world).2 in
  int64 (Feed.lastMessageId Feed.fresh_view) = true ∧
  ids_in_int64 (db w) ∧
  Feed.shown (Feed.poll_rounds 1 w Feed.fresh_view)
  = [] ++ Feed.new_agent_messages ∅ (pending_since 0 (db w)) ∧
  Feed.shown (Feed.poll_rounds 1 w Feed.fresh_view) = [(2, "jarvis", "hi there")].
Proof.
  intros env w.
  assert (Hids : ids_in_int64 (db w)).
  { apply (bool_decide_unpack
             (map_Forall (λ k _, int64 k = true) (messages (db w)))).
    vm_compute. exact I. }
  split; [reflexivity|]. split; [exact Hids|]. split; [|reflexivity].
  apply (polling_shows_every_pending_message_once 1 w Feed.fresh_view);
    [reflexivity|exact Hids|].
  vm_compute. lia.
Defined.

Section Seeding.
Import Feed.

Lemma history_one_seen (v : View) (m : Message) :
  id m ∈ displayedMessageIds v → history_one v m = v.
Proof. intros Hin. unfold history_one. by rewrite decide_True. Qed.

Lemma history_one_new (v : View) (m : Message) :
  id m ∉ displayedMessageIds v →
  history_one v m
  = mkView (Z.max (lastMessageId v) (id m)) ({[id m]} ∪ displayedMessageIds v)
           (shown v ++ [(id m, msg_direction m, msg_text m)]) (player v).
Proof. intros Hin. unfold history_one. by rewrite decide_False. Qed.

Lemma loadHistory_fresh (l : list Message) (v : View) :
  NoDup (id <$> l) → (∀ m, m ∈ l → id m ∉ displayedMessageIds v) →
  lastMessageId (foldl history_one v l) = foldl Z.max (lastMessageId v) (id <$> l) ∧
  shown (foldl history_one v l)
    = shown v ++ ((λ m, (id m, msg_direction m, msg_text m)) <$> l) ∧
  player (foldl history_one v l) = player v.
Proof.
  revert v. induction l as [|m l IH]; intros v Hnd Hl.
  { simpl. by rewrite app_nil_r. }
  rewrite fmap_cons in Hnd. apply NoDup_cons in Hnd as [Hm Hnd].
  cbn [foldl]. rewrite history_one_new by (apply Hl; by left).
  destruct (IH (mkView (Z.max (lastMessageId v) (id m)) ({[id m]} ∪ displayedMessageIds v)
                  (shown v ++ [(id m, msg_direction m, msg_text m)]) (player v)))
    as (Hcur & Hshown & Hplayer); [done| |].
  { intros m' Hm'. cbn [displayedMessageIds].
    rewrite elem_of_union, elem_of_singleton. intros [Heq|Hin].
    - apply Hm. rewrite <-Heq. by apply list_elem_of_fmap_2.
    - by apply (Hl m'); [right|]. }
  rewrite Hcur, Hshown, Hplayer. cbn [lastMessageId shown player].
  by rewrite <-(assoc_L (++)).
Qed.

Lemma foldl_max_ge (c : Z) (l : list Z) :
  c ≤ foldl Z.max c l ∧ ∀ x, x ∈ l → x ≤ foldl Z.max c l.
Proof.
  revert c. induction l as [|y l IH]; intros c; simpl.
  { split; [done|]. by intros x ?%elem_of_nil. }
  destruct (IH (Z.max c y)) as [Hc Hl]. split; [lia|].
  intros x [->|Hx]%elem_of_cons; [lia|by apply Hl].
Qed.

Lemma pending_since_top (c : Z) (d : DB) :
  (∀ k, is_Some (messages d !! k) → k ≤ c) → pending_since c d = [].
Proof.
  intros Htop. destruct (pending_since c d) as [|m l] eqn:Hp; [done|].
  assert (Hm : m ∈ pending_since c d) by (rewrite Hp; by left).
  apply elem_of_pending_since in Hm as (r & Hr & Hc & _).
  assert (id m ≤ c) by (apply Htop; by eexists). lia.
Qed.

End Seeding.

(** X15. Seeding a fresh view from the history endpoint shows the returned
    messages in ascending id order, each with its own direction, queues no
    audio, and leaves the cursor at or above every id in the store; so the
    first poll after it, over the same store, shows and queues nothing. *)
Theorem history_seeds_the_cursor (w : World) :
  let v := Feed.history_round w Feed.fresh_view in
  Feed.shown v
    = (λ m, (id m, msg_direction m, msg_text m)) <$> db_get_recent 20 (db w) ∧
  Feed.player v = Feed.idle_player ∧
  (∀ k, is_Some (messages (db w) !! k) → k ≤ Feed.lastMessageId v) ∧
  Feed.poll_round w v = v.
Proof.
  intros v.
  destruct (db_get_recent_facts 20 (db w)) as (Hsorted & Hrows & Hlen & Hrecent).
  set (recent := db_get_recent 20 (db w)) in *.
  destruct (loadHistory_fresh recent Feed.fresh_view) as (Hcur & Hshown & Hplayer).
  { by apply StronglySorted_NoDup_lt. }
  { intros m _. apply not_elem_of_empty. }
  assert (Hv : v = foldl Feed.history_one Feed.fresh_view recent) by done.
  rewrite <-Hv in Hcur, Hshown, Hplayer.
  assert (Htop : ∀ k, is_Some (messages (db w) !! k) → k ≤ Feed.lastMessageId v).
  { intros k [r Hr]. rewrite Hcur.
    destruct (foldl_max_ge (Feed.lastMessageId Feed.fresh_view) (id <$> recent))
      as [_ Hge].
    destruct (decide (k ∈ id <$> recent)) as [Hin|Hnotin]; [by apply Hge|].
    assert (Hout : select_columns (k, r) ∉ recent).
    { intros Hin. apply Hnotin.
      by apply (list_elem_of_fmap_2 id _ (select_columns (k, r))). }
    clear Hnotin.
    { destruct recent as [|m l] eqn:Hrec.
      + exfalso. rewrite decide_False in Hlen by lia.
        assert (Hsize : size (messages (db w)) = 0%nat) by (cbn [length] in Hlen; lia).
        apply map_size_empty_iff in Hsize. rewrite Hsize in Hr.
        by rewrite lookup_empty in Hr.
      + assert (k < id m) by (apply (Hrecent m k r); [by left|done|done]).
        assert (id m ≤ foldl Z.max (Feed.lastMessageId Feed.fresh_view) (id <$> m :: l))
          by (apply Hge; rewrite fmap_cons; by left).
        lia. } }
  split; [done|]. split; [done|]. split; [done|].
  destruct (int64 (Feed.lastMessageId v)) eqn:Hc; [|by apply poll_round_refused].
  rewrite poll_round_unfold, pending_since_take by (done || lia).
  by rewrite pending_since_top.
Qed.

Section Playback.
Import Feed.

(** What the player keeps true: the flag is up exactly while a call is
    suspended, nothing waits while nothing plays, and the ids taken so far
    followed by what is playing and waiting are the ids queued so far. *)
Lemma player_invariant (es : list PlayerEvent) :
  let p := foldl player_step idle_player es in
  (isPlaying p = true ↔ is_Some (current p)) ∧
  (isPlaying p = false → audioQueue p = []) ∧
  ∃ taken, taken ++ outstanding p = queued_ids es ∧
           posted p `sublist_of` taken ∧
           (never_threw es = true → posted p = taken).
Proof.
  induction es as [|e es IH] using rev_ind.
  { simpl. split; [split; [done|by intros [? ?]]|]. split; [done|].
    exists []. done. }
  rewrite foldl_app. cbn [foldl]. cbv zeta in IH.
  set (p := foldl player_step idle_player es) in *.
  destruct IH as (Hflag & Hidle & taken & Htaken & Hsub & Hall).
  assert (Hq : queued_ids (es ++ [e])
               = queued_ids es ++ match e with Queued _ i => [i] | Settled _ => [] end).
  { unfold queued_ids. rewrite omap_app. by destruct e. }
  assert (Hn : never_threw (es ++ [e]) = true → never_threw es = true).
  { unfold never_threw. rewrite forallb_app. by intros [? _]%andb_true_iff. }
  rewrite Hq. destruct e as [path i|o]; cbn [player_step].
  - unfold queueAudio, playNextAudio. cbn [isPlaying audioQueue current posted].
    destruct (isPlaying p) eqn:Hplaying.
    + cbn [isPlaying current audioQueue posted].
      split; [by rewrite <-Hflag|]. split; [done|]. exists taken.
      split; [|split; [done|auto]].
      rewrite <-Htaken. unfold outstanding. cbn [current audioQueue].
      rewrite fmap_app, <-!(assoc_L (++)). done.
    + rewrite (Hidle eq_refl). cbn [app isPlaying current audioQueue posted].
      split; [split; [intros _; by eexists|done]|]. split; [done|]. exists taken.
      split; [|split; [done|auto]].
      rewrite <-Htaken. unfold outstanding. rewrite (Hidle eq_refl).
      destruct (current p) as [x|] eqn:Hcur; [|simpl; by rewrite !app_nil_r].
      assert (false = true) by (apply Hflag; by eexists). done.
  - unfold settle. destruct (current p) as [[path i]|] eqn:Hcur.
    2:{ split; [by rewrite Hcur|]. split; [done|]. exists taken.
        rewrite app_nil_r. split; [done|]. split; [done|auto]. }
    assert (Hout : outstanding p = i :: (audioQueue p).*2)
      by (unfold outstanding; by rewrite Hcur).
    rewrite Hout in Htaken.
    assert (Hposted : match o with Resolved => posted p ++ [i] | Threw => posted p end
                        `sublist_of` taken ++ [i] ∧
                      (never_threw (es ++ [Settled o]) = true →
                       match o with Resolved => posted p ++ [i] | Threw => posted p end
                       = taken ++ [i])).
    { split.
      - destruct o; [by apply sublist_app|by apply sublist_inserts_r].
      - intros Hnt. destruct o.
        + by rewrite (Hall (Hn Hnt)).
        + unfold never_threw in Hnt. rewrite forallb_app in Hnt.
          apply andb_true_iff in Hnt as [_ Hnt]. discriminate Hnt. }
    destruct Hposted as [Hsub' Hall'].
    destruct (audioQueue p) as [|x q] eqn:Hqueue.
    + cbn [isPlaying current audioQueue posted].
      split; [split; [done|by intros [? ?]]|]. split; [done|].
      exists (taken ++ [i]). rewrite !app_nil_r.
      split; [|done]. unfold outstanding. cbn [current audioQueue].
      by rewrite <-Htaken.
    + unfold playNextAudio. cbn [isPlaying current audioQueue posted].
      split; [split; [intros _; by eexists|done]|]. split; [done|].
      exists (taken ++ [i]). rewrite !app_nil_r.
      split; [|done]. unfold outstanding. cbn [current audioQueue].
      rewrite <-Htaken, <-(assoc_L (++)). done.
Qed.

End Playback.

(** X16. Through any sequence of queueings and endings of playback, from an
    idle player: the playing flag is set exactly while an asset is being
    played, nothing waits in the queue while nothing is playing, assets are
    taken in the order they were queued (the ids already taken, then the
    one playing, then the waiting ones, are the queued ids in order), and
    the ids posted to the delivered endpoint are taken ids in that order,
    all of them when no playback threw. *)
Theorem playback_is_first_in_first_out (es : list Feed.PlayerEvent) :
  let p := foldl Feed.player_step Feed.idle_player es in
  (Feed.isPlaying p = true ↔ is_Some (Feed.current p)) ∧
  (Feed.isPlaying p = false → Feed.audioQueue p = []) ∧
  ∃ taken, taken ++ Feed.outstanding p = Feed.queued_ids es ∧
           Feed.posted p `sublist_of` taken ∧
           (Feed.never_threw es = true → Feed.posted p = taken).
Proof. apply player_invariant. Qed.
